(** * A shallow embedding of the snake game (src/main.js)

    The game is one JavaScript file.  Its core is the [Snake] class, the
    food relocation [updateFood], the frame callback [loop] and the five
    button handlers installed by [main].  This development embeds those
    in Rocq and states the properties of the specification over them.

    Conventions of the embedding.
    - JavaScript numbers that hold grid coordinates and scores are
      integers of small magnitude: they are [Z].
    - Timestamps handed to a frame callback and the values of
      [Math.random()] are fractional: they are exact rationals [Q];
      rounding of doubles is not modelled.
    - [Math.random()] is an oracle: the functions that draw random
      numbers take the list of the values still to be drawn and hand
      back the rest.  Running out of that list stands for a retry loop
      that has not finished yet.
    - Reading [this.body[0].x] on an empty body throws a [TypeError] in
      JavaScript: the snake's methods return [option], the game's
      functions a [Result].
    - The page (canvas, score paragraphs, alert box, pending animation
      frames, key listeners) is part of the state as plain counters and
      numbers so that effects can be counted. *)

From Stdlib Require Import ZArith QArith Qround String List Bool Lia Permutation.
Import ListNotations.

#[local] Open Scope Z_scope.

(** ** Global constants *)

Definition blockSize : Z := 20.
Definition rows : Z := 30.
Definition cols : Z := 30.

Definition bgColor : string := "black".
Definition snakeHeadColor : string := "orange".
Definition snakeBodyColor : string := "green".
Definition foodColor : string := "red".

(** Directions are the integers 0..3 in the source; the type keeps the
    four names and [code] gives the integer, on which the source's bit
    operations are written out. *)
Inductive Direction : Set := kUp | kDown | kLeft | kRight.

Definition code (d : Direction) : Z :=
  match d with kUp => 0 | kDown => 1 | kLeft => 2 | kRight => 3 end.

Definition kDx : list Z := [0; 0; -1; 1].
Definition kDy : list Z := [-1; 1; 0; 0].

(** [kDx[i]] for an index inside the table. *)
Definition at_index (table : list Z) (i : Z) : Z := nth (Z.to_nat i) table 0.

(** ** Helper functions *)

(** [random(min, max)], given the value [r] of [Math.random()]. *)
Definition random (r : Q) (min max : Z) : Z :=
  Qfloor (r * inject_Z (max - min + 1)) + min.

(** The contract of [Math.random()]: a value in [0, 1). *)
Definition unit_interval (r : Q) : Prop := (0 <= r)%Q /\ (r < 1)%Q.

(** ** Classes *)

Record Block : Set := mkBlock { x : Z; y : Z; color : string }.

Definition new_Food (fx fy : Z) : Block := mkBlock fx fy foodColor.

(** [listeners] counts the key listeners registered on the document with
    the signal of the snake's current [#controller]. *)
Record Snake : Set := mkSnake {
  direction : Direction;
  body : list Block;
  lastMove : Direction;
  listeners : nat
}.

Definition new_Snake (sx sy : Z) (d : Direction) : Snake :=
  let verse := Z.lxor (code d) 1 in
  {| direction := d;
     body := [ mkBlock sx sy snakeHeadColor;
               mkBlock (sx + at_index kDx verse) (sy + at_index kDy verse)
                       snakeBodyColor ];
     lastMove := d;
     listeners := 0 |}.

Module Snake.

(** [next()]: the cell in front of the head. *)
Definition next (s : Snake) : option (Z * Z) :=
  match body s with
  | [] => None
  | b0 :: _ =>
      Some (x b0 + at_index kDx (code (direction s)),
            y b0 + at_index kDy (code (direction s)))
  end.

Definition hits (nx ny : Z) (b : Block) : bool :=
  (x b =? nx) && (y b =? ny).

(** [checkMove()]; the [for] loop starts at index 4. *)
Definition checkMove (s : Snake) : option bool :=
  match next s with
  | None => None
  | Some (nx, ny) =>
      if (nx <? 0) || (nx >=? rows) || (ny <? 0) || (ny >=? cols)
      then Some false
      else if existsb (hits nx ny) (skipn 4 (body s))
           then Some false
           else Some true
  end.

Definition eatFood (s : Snake) (food : Block) : option bool :=
  match next s with
  | None => None
  | Some (nx, ny) =>
      if (nx =? x food) && (ny =? y food) then Some true else Some false
  end.

Definition recolor (c : string) (b : Block) : Block :=
  mkBlock (x b) (y b) c.

Definition extend (s : Snake) : option Snake :=
  match next s, body s with
  | Some (nx, ny), b0 :: rest =>
      Some {| direction := direction s;
              body := mkBlock nx ny snakeHeadColor
                        :: recolor snakeBodyColor b0 :: rest;
              lastMove := direction s;
              listeners := listeners s |}
  | _, _ => None
  end.

(** [Array.prototype.pop] drops the last element (nothing on []). *)
Definition pop (s : Snake) : Snake :=
  {| direction := direction s;
     body := removelast (body s);
     lastMove := lastMove s;
     listeners := listeners s |}.

Definition move (s : Snake) : option Snake :=
  match extend s with
  | Some s' => Some (pop s')
  | None => None
  end.

Definition updateDirection (d : Direction) (s : Snake) : Snake :=
  if Z.shiftr (code d) 1 =? Z.shiftr (code (lastMove s)) 1 then s
  else {| direction := d;
          body := body s;
          lastMove := lastMove s;
          listeners := listeners s |}.

Definition bindKeys (s : Snake) : Snake :=
  {| direction := direction s;
     body := body s;
     lastMove := lastMove s;
     listeners := S (listeners s) |}.

(** Aborting the controller removes its listeners; the fresh
    controller has none. *)
Definition unbindKeys (s : Snake) : Snake :=
  {| direction := direction s;
     body := body s;
     lastMove := lastMove s;
     listeners := 0 |}.

(** The body of one key listener. *)
Definition onKey (key : string) (s : Snake) : Snake :=
  if (key =? "w")%string || (key =? "ArrowUp")%string
  then updateDirection kUp s
  else if (key =? "s")%string || (key =? "ArrowDown")%string
  then updateDirection kDown s
  else if (key =? "a")%string || (key =? "ArrowLeft")%string
  then updateDirection kLeft s
  else if (key =? "d")%string || (key =? "ArrowRight")%string
  then updateDirection kRight s
  else s.

End Snake.

(** ** Global variables and the page *)

Inductive Status : Set := StEnd | StPause | StRun.

(** The mutable globals of the script, and what it has done to the page:
    [shown] is the pair (highest score, score) last written to the two
    paragraphs, [drawn] counts calls of [drawFrame], [alerts] calls of
    [alert], and [requested] the frame callbacks requested with
    [requestAnimationFrame] that have not run yet. *)
Record Game : Type := mkGame {
  snake : Snake;
  food : Block;
  start : option Q;
  prevTime : option Q;
  gameStatus : Status;
  score : Z;
  highestScore : Z;
  shown : Z * Z;
  drawn : nat;
  alerts : nat;
  requested : nat
}.

Definition set_snake (s : Snake) (g : Game) : Game :=
  mkGame s (food g) (start g) (prevTime g) (gameStatus g) (score g)
         (highestScore g) (shown g) (drawn g) (alerts g) (requested g).
Definition set_food (f : Block) (g : Game) : Game :=
  mkGame (snake g) f (start g) (prevTime g) (gameStatus g) (score g)
         (highestScore g) (shown g) (drawn g) (alerts g) (requested g).
Definition set_start (t : option Q) (g : Game) : Game :=
  mkGame (snake g) (food g) t (prevTime g) (gameStatus g) (score g)
         (highestScore g) (shown g) (drawn g) (alerts g) (requested g).
Definition set_prevTime (t : option Q) (g : Game) : Game :=
  mkGame (snake g) (food g) (start g) t (gameStatus g) (score g)
         (highestScore g) (shown g) (drawn g) (alerts g) (requested g).
Definition set_gameStatus (st : Status) (g : Game) : Game :=
  mkGame (snake g) (food g) (start g) (prevTime g) st (score g)
         (highestScore g) (shown g) (drawn g) (alerts g) (requested g).
Definition set_score (n : Z) (g : Game) : Game :=
  mkGame (snake g) (food g) (start g) (prevTime g) (gameStatus g) n
         (highestScore g) (shown g) (drawn g) (alerts g) (requested g).
Definition set_highestScore (n : Z) (g : Game) : Game :=
  mkGame (snake g) (food g) (start g) (prevTime g) (gameStatus g) (score g)
         n (shown g) (drawn g) (alerts g) (requested g).
Definition set_requested (n : nat) (g : Game) : Game :=
  mkGame (snake g) (food g) (start g) (prevTime g) (gameStatus g) (score g)
         (highestScore g) (shown g) (drawn g) (alerts g) n.

(** Page effects. *)
Definition updateScores (g : Game) : Game :=
  mkGame (snake g) (food g) (start g) (prevTime g) (gameStatus g) (score g)
         (highestScore g) (highestScore g, score g) (drawn g) (alerts g)
         (requested g).
Definition drawFrame (g : Game) : Game :=
  mkGame (snake g) (food g) (start g) (prevTime g) (gameStatus g) (score g)
         (highestScore g) (shown g) (S (drawn g)) (alerts g) (requested g).
Definition alert (g : Game) : Game :=
  mkGame (snake g) (food g) (start g) (prevTime g) (gameStatus g) (score g)
         (highestScore g) (shown g) (drawn g) (S (alerts g)) (requested g).
Definition requestAnimationFrame (g : Game) : Game :=
  set_requested (S (requested g)) g.

(** ** Results of the functions that can fail *)

(** [Thrown] is an uncaught [TypeError]; [Starved] means that the random
    values supplied were used up before the retry loop of [updateFood]
    found a cell. *)
Inductive Result (A : Type) : Type :=
| Ok (a : A)
| Thrown
| Starved.
Arguments Ok {A} a.
Arguments Thrown {A}.
Arguments Starved {A}.

(** ** Functions *)

Definition blockExist (g : Game) (bx by_ : Z) : bool :=
  if (bx =? x (food g)) && (by_ =? y (food g)) then true
  else existsb (Snake.hits bx by_) (body (snake g)).

(** The [do ... while] loop of [updateFood]: every round draws [x] and
    then [y]. *)
Fixpoint sample_cell (g : Game) (rs : list Q) : Result (Z * Z * list Q) :=
  match rs with
  | rx :: ry :: rs' =>
      let cx := random rx 0 (rows - 1) in
      let cy := random ry 0 (cols - 1) in
      if blockExist g cx cy then sample_cell g rs' else Ok (cx, cy, rs')
  | _ => Starved
  end.

Definition updateFood (g : Game) (rs : list Q) : Result (Game * list Q) :=
  match sample_cell g rs with
  | Ok (cx, cy, rs') =>
      Ok (set_food (mkBlock cx cy (color (food g))) g, rs')
  | Thrown => Thrown
  | Starved => Starved
  end.

Definition resetGame (g : Game) : Game :=
  set_food (new_Food 15 15)
    (set_snake (new_Snake 10 10 kRight)
       (set_score 0 (set_start None g))).

Definition initGame (g : Game) : Game :=
  drawFrame (updateScores (resetGame g)).

(** How the body of the [for] loop in [loop] ends: it falls through to
    the next round, or it executes [return]. *)
Inductive Flow : Type :=
| Continue (g : Game)
| Return (g : Game).

Definition flow_game (f : Flow) : Game :=
  match f with Continue g => g | Return g => g end.

(** One round of the [for] loop: one tick. *)
Definition tick (g : Game) (rs : list Q) : Result (Flow * list Q) :=
  match Snake.eatFood (snake g) (food g) with
  | None => Thrown
  | Some true =>
      let g1 := set_score (score g + 1) g in
      let g2 := set_highestScore (Z.max (score g1) (highestScore g1)) g1 in
      let g3 := updateScores g2 in
      match updateFood g3 rs with
      | Ok (g4, rs') =>
          match Snake.extend (snake g4) with
          | Some s' => Ok (Continue (drawFrame (set_snake s' g4)), rs')
          | None => Thrown
          end
      | Thrown => Thrown
      | Starved => Starved
      end
  | Some false =>
      match Snake.checkMove (snake g) with
      | None => Thrown
      | Some true =>
          match Snake.move (snake g) with
          | Some s' => Ok (Continue (drawFrame (set_snake s' g)), rs)
          | None => Thrown
          end
      | Some false => Ok (Return (alert (set_gameStatus StEnd g)), rs)
      end
  end.

(** [n] rounds of the [for] loop, stopping at the first [return]. *)
Fixpoint for_ticks (n : nat) (g : Game) (rs : list Q)
  : Result (Flow * list Q) :=
  match n with
  | O => Ok (Continue g, rs)
  | S n' =>
      match tick g rs with
      | Ok (Continue g', rs') => for_ticks n' g' rs'
      | other => other
      end
  end.

(** [Math.floor((time - prevTime) / 250)]; [None] is the [NaN] obtained
    when [prevTime] is [undefined]. *)
Definition elapsed_ticks (time : Q) (prev : option Q) : option Z :=
  match prev with
  | Some p => Some (Qfloor ((time - p) / 250))
  | None => None
  end.

(** Number of rounds of [for (let i = 0; i < ticks; ++i)]. *)
Definition rounds (ticks : option Z) : nat :=
  match ticks with Some t => Z.to_nat t | None => O end.

(** [ticks >= 1]. *)
Definition at_least_one (ticks : option Z) : bool :=
  match ticks with Some t => 1 <=? t | None => false end.

(** [if (start === undefined) start = prevTime = time]. *)
Definition baseline (time : Q) (g : Game) : Game :=
  match start g with
  | None => set_start (Some time) (set_prevTime (Some time) g)
  | Some _ => g
  end.

Definition loop (time : Q) (g : Game) (rs : list Q)
  : Result (Game * list Q) :=
  match gameStatus g with
  | StEnd | StPause => Ok (g, rs)
  | StRun =>
      let g1 := baseline time g in
      let ticks := elapsed_ticks time (prevTime g1) in
      match for_ticks (rounds ticks) g1 rs with
      | Ok (Return g2, rs') => Ok (g2, rs')
      | Ok (Continue g2, rs') =>
          let g3 := if at_least_one ticks
                    then set_prevTime (Some time) g2 else g2 in
          Ok (requestAnimationFrame g3, rs')
      | Thrown => Thrown
      | Starved => Starved
      end
  end.

(** The buttons of the page and their click handlers. *)
Inductive Button : Set :=
  btnStart | btnPause | btnResume | btnRestart | btnEnd | btnAuto.

Definition bindKeys (g : Game) : Game :=
  set_snake (Snake.bindKeys (snake g)) g.
Definition unbindKeys (g : Game) : Game :=
  set_snake (Snake.unbindKeys (snake g)) g.

Definition click (b : Button) (g : Game) : Game :=
  match b with
  | btnStart =>
      match gameStatus g with
      | StEnd =>
          requestAnimationFrame
            (bindKeys (set_gameStatus StRun (resetGame g)))
      | _ => g
      end
  | btnPause =>
      match gameStatus g with
      | StRun => unbindKeys (set_start None (set_gameStatus StPause g))
      | _ => g
      end
  | btnResume =>
      match gameStatus g with
      | StPause =>
          requestAnimationFrame (bindKeys (set_gameStatus StRun g))
      | _ => g
      end
  | btnRestart =>
      match gameStatus g with
      | StRun => bindKeys (initGame g)
      | _ => g
      end
  | btnEnd =>
      match gameStatus g with
      | StEnd => g
      | _ => initGame (set_gameStatus StEnd g)
      end
  | btnAuto => g
  end.

(** A [keydown] event runs every listener on the current snake.
    Listeners left behind on snakes that were replaced only change
    objects the game no longer reaches. *)
Definition keydown (key : string) (g : Game) : Game :=
  set_snake (Nat.iter (listeners (snake g)) (Snake.onKey key) (snake g)) g.

(** The state once the script has run: the initial values of the
    globals, then [main()], whose only change to them is [initGame()].
    [snake] and [food] are [undefined] until [resetGame] assigns them;
    the values given to them here are never read. *)
Definition globals : Game :=
  {| snake := mkSnake kRight [] kRight 0;
     food := new_Food 0 0;
     start := None;
     prevTime := None;
     gameStatus := StEnd;
     score := 0;
     highestScore := 0;
     shown := (0, 0);
     drawn := 0;
     alerts := 0;
     requested := 0 |}.

Definition main : Game := initGame globals.

(** ** Runs of the game

    After [main] the script only reacts to events: a requested frame
    callback runs with some timestamp, a button is clicked, a key goes
    down.  A frame whose [updateFood] never finishes, or that throws,
    yields no state. *)
Inductive step : Game -> Game -> Prop :=
| step_frame g n time rs g' rs' :
    requested g = S n ->
    loop time (set_requested n g) rs = Ok (g', rs') ->
    step g g'
| step_click g b : step g (click b g)
| step_key g key : step g (keydown key g).

Inductive steps : Game -> Game -> Prop :=
| steps_refl g : steps g g
| steps_next g g' g'' : steps g g' -> step g' g'' -> steps g g''.

Definition reachable (g : Game) : Prop := steps main g.

(** *** Runs given by a list of events *)

Inductive Event : Type :=
| Frame (time : Q) (rs : list Q)
| Click (b : Button)
| Key (key : string).

(** The state after an event; a frame callback that was not requested,
    or that does not return, leaves the state where it was. *)
Definition fire (g : Game) (e : Event) : Game :=
  match e with
  | Frame time rs =>
      match requested g with
      | S n =>
          match loop time (set_requested n g) rs with
          | Ok (g', _) => g'
          | _ => g
          end
      | O => g
      end
  | Click b => click b g
  | Key key => keydown key g
  end.

Definition run (es : list Event) (g : Game) : Game := fold_left fire es g.

(** *** Some states and inputs used as examples *)

(** The snake of a fresh game, and a snake with its head in the last
    column, heading right. *)
Definition fresh_snake : Snake := new_Snake 10 10 kRight.
Definition edge_snake : Snake := new_Snake (cols - 1) 10 kRight.

(** Four values of [Math.random()]: the first two give the cell
    (15, 15), the last two the cell (10, 20). *)
Definition food_samples : list Q := [1 # 2; 1 # 2; 1 # 3; 2 # 3]%Q.

(** The snake heads right along row 10, four cells from its start. *)
Definition heading_right : Game :=
  run [Click btnStart; Frame 0 []; Frame 1000 []] main.

(** The food lies on the cell in front of the head. *)
Definition about_to_eat : Game :=
  run [Key "s"; Frame 2250 []; Key "d"] heading_right.

(** The game was paused and resumed 100 ms after its last tick. *)
Definition just_resumed : Game :=
  run [Click btnStart; Frame 1000 []; Click btnPause; Frame 1010 [];
       Click btnResume] main.

(** The game after the snake of [about_to_eat] ate, the game was ended
    and a new one started. *)
Definition played_again : Game :=
  run [Frame 2500 food_samples; Click btnEnd; Click btnStart] about_to_eat.

(** ** One tick, case by case *)

(** The globals after the two score assignments and [updateScores()] of
    the eating branch. *)
Definition scored (g : Game) : Game :=
  updateScores
    (set_highestScore (Z.max (score g + 1) (highestScore g))
       (set_score (score g + 1) g)).

(** The three ways a tick can end. *)
Inductive tick_spec (g : Game) (rs : list Q) : Flow -> list Q -> Prop :=
| tick_eat g4 rs' s' :
    Snake.eatFood (snake g) (food g) = Some true ->
    updateFood (scored g) rs = Ok (g4, rs') ->
    Snake.extend (snake g) = Some s' ->
    tick_spec g rs (Continue (drawFrame (set_snake s' g4))) rs'
| tick_move s' :
    Snake.eatFood (snake g) (food g) = Some false ->
    Snake.checkMove (snake g) = Some true ->
    Snake.move (snake g) = Some s' ->
    tick_spec g rs (Continue (drawFrame (set_snake s' g))) rs
| tick_over :
    Snake.eatFood (snake g) (food g) = Some false ->
    Snake.checkMove (snake g) = Some false ->
    tick_spec g rs (Return (alert (set_gameStatus StEnd g))) rs.

(** ** Vocabulary of the properties *)

Definition cell (b : Block) : Z * Z := (x b, y b).

(** Some body segment lies on the cell [(cx, cy)]. *)
Definition occupied (l : list Block) (cx cy : Z) : Prop :=
  exists b, In b l /\ x b = cx /\ y b = cy.

(** The food is on no segment of the snake. *)
Definition food_free (g : Game) : Prop :=
  ~ occupied (body (snake g)) (x (food g)) (y (food g)).

Definition in_grid (cx cy : Z) : Prop :=
  0 <= cx < rows /\ 0 <= cy < cols.

(** Some segment at index 4 or more lies on the cell [(cx, cy)]. *)
Definition collides_from_4 (s : Snake) (cx cy : Z) : Prop :=
  exists i b, (4 <= i)%nat /\ nth_error (body s) i = Some b
              /\ x b = cx /\ y b = cy.

(** Two blocks one unit step apart along one coordinate. *)
Definition adjacent (a b : Block) : Prop :=
  (x a = x b /\ Z.abs (y a - y b) = 1) \/
  (y a = y b /\ Z.abs (x a - x b) = 1).

Fixpoint chained (l : list Block) : Prop :=
  match l with
  | a :: (b :: _) as t => adjacent a b /\ chained t
  | _ => True
  end.

(** The snakes that the class can produce: built by the constructor,
    then changed by its methods. *)
Inductive snake_reachable : Snake -> Prop :=
| sr_new sx sy d : snake_reachable (new_Snake sx sy d)
| sr_extend s s' :
    snake_reachable s -> Snake.extend s = Some s' -> snake_reachable s'
| sr_move s s' :
    snake_reachable s -> Snake.move s = Some s' -> snake_reachable s'
| sr_direction s d :
    snake_reachable s -> snake_reachable (Snake.updateDirection d s)
| sr_bind s : snake_reachable s -> snake_reachable (Snake.bindKeys s)
| sr_unbind s : snake_reachable s -> snake_reachable (Snake.unbindKeys s).

(** ** The rest of the script *)

(** [randomColor()] builds its template string from three calls of
    itself (the arguments [0, 255] it passes are ignored by a function
    without parameters), so every call makes another call before it can
    return.  [depth] is the number of stack frames left; with none left
    the engine throws a [RangeError], which is [None] here. *)
Fixpoint randomColor (depth : nat) : option string :=
  match depth with
  | O => None
  | S d =>
      match randomColor d with
      | None => None
      | Some r =>
          match randomColor d with
          | None => None
          | Some g =>
              match randomColor d with
              | None => None
              | Some b =>
                  Some ("rgb(" ++ r ++ ", " ++ g ++ ", " ++ b ++ ")")%string
              end
          end
      end
  end.

(** The canvas.  The 2D context keeps the current [fillStyle]; the
    rectangles filled so far are listed with the latest first, each with
    the style it was filled with.  Pixels are integer points. *)
Module Canvas.

Definition width : Z := rows * blockSize.
Definition height : Z := cols * blockSize.

Record Rect : Set := mkRect {
  left : Z; top : Z; wide : Z; high : Z; fill : string
}.

Record Context : Set := mkContext {
  fillStyle : string;
  filled : list Rect
}.

Definition set_fillStyle (c : string) (ctx : Context) : Context :=
  mkContext c (filled ctx).

Definition fillRect (rx ry rw rh : Z) (ctx : Context) : Context :=
  mkContext (fillStyle ctx)
            (mkRect rx ry rw rh (fillStyle ctx) :: filled ctx).

(** [Block.draw()]. *)
Definition draw_Block (b : Block) (ctx : Context) : Context :=
  fillRect (x b * blockSize) (y b * blockSize) blockSize blockSize
           (set_fillStyle (color b) ctx).

(** [Snake.draw()]: the blocks of the body in order, head first. *)
Definition draw_Snake (s : Snake) (ctx : Context) : Context :=
  fold_left (fun c b => draw_Block b c) (body s) ctx.

(** What [drawFrame()] does to the canvas. *)
Definition drawFrame (g : Game) (ctx : Context) : Context :=
  draw_Block (food g)
    (draw_Snake (snake g)
       (fillRect 0 0 width height (set_fillStyle bgColor ctx))).

(** The rectangle [Block.draw()] fills. *)
Definition block_rect (b : Block) : Rect :=
  mkRect (x b * blockSize) (y b * blockSize) blockSize blockSize (color b).

Definition covers (px py : Z) (r : Rect) : bool :=
  (left r <=? px) && (px <? left r + wide r) &&
  (top r <=? py) && (py <? top r + high r).

(** The colour of a pixel: that of the latest rectangle over it. *)
Definition pixel (ctx : Context) (px py : Z) : option string :=
  option_map fill (find (covers px py) (filled ctx)).

(** The colour a frame gives to a grid cell: the food's on the food's
    cell, otherwise that of the last body block on the cell, otherwise
    the background. *)
Definition cell_colour (g : Game) (cx cy : Z) : string :=
  if Snake.hits cx cy (food g) then color (food g)
  else match find (Snake.hits cx cy) (rev (body (snake g))) with
       | Some b => color b
       | None => bgColor
       end.

End Canvas.

(** Runs in which every value of [Math.random()] lies in [0, 1). *)
Inductive honest_step : Game -> Game -> Prop :=
| honest_frame g n time rs g' rs' :
    Forall unit_interval rs ->
    requested g = S n ->
    loop time (set_requested n g) rs = Ok (g', rs') ->
    honest_step g g'
| honest_click g b : honest_step g (click b g)
| honest_key g key : honest_step g (keydown key g).

Inductive honest_steps : Game -> Game -> Prop :=
| honest_refl g : honest_steps g g
| honest_next g g' g'' :
    honest_steps g g' -> honest_step g' g'' -> honest_steps g g''.

(** An event whose values of [Math.random()] lie in [0, 1). *)
Definition honest_event (e : Event) : Prop :=
  match e with
  | Frame _ rs => Forall unit_interval rs
  | _ => True
  end.

(** Snake and food lie inside the grid. *)
Definition inside (g : Game) : Prop :=
  in_grid (x (food g)) (y (food g)) /\
  Forall (fun b => in_grid (x b) (y b)) (body (snake g)).

(** The head has the head colour, every other block the body colour. *)
Definition coloured (l : list Block) : Prop :=
  match l with
  | [] => False
  | h :: t =>
      color h = snakeHeadColor /\ Forall (fun b => color b = snakeBodyColor) t
  end.

(** The second block lies one step behind the head, against the last
    committed direction, and the current direction does not undo it. *)
Definition neck_behind (s : Snake) : Prop :=
  match body s with
  | h :: n :: _ =>
      x n = x h - at_index kDx (code (lastMove s)) /\
      y n = y h - at_index kDy (code (lastMove s))
  | _ => False
  end /\
  (direction s = lastMove s \/
   Z.shiftr (code (direction s)) 1 <> Z.shiftr (code (lastMove s)) 1).

(** The values of [Math.random()] of a list of rounds, in the order
    they are drawn. *)
Fixpoint drawn_values (rounds_ : list (Q * Q)) : list Q :=
  match rounds_ with
  | [] => []
  | (rx, ry) :: t => rx :: ry :: drawn_values t
  end.

(** The cell of a round, and whether [blockExist] rejects it. *)
Definition round_cell (r : Q * Q) : Z * Z :=
  (random (fst r) 0 (rows - 1), random (snd r) 0 (cols - 1)).

Definition rejected (g : Game) (r : Q * Q) : bool :=
  blockExist g (fst (round_cell r)) (snd (round_cell r)).

(** More example states: a game lost after one meal and started again,
    and a game paused and resumed before the pending frame ran. *)
Definition lost_then_started : Game :=
  run [Frame 2500 food_samples; Frame 10000 []; Click btnStart] about_to_eat.


(** A snake that has just turned up and left inside a square of two by
    two cells and now heads down, towards its own fourth block. *)
Definition coiled : Snake :=
  mkSnake kDown
    [mkBlock 12 9 "orange"; mkBlock 13 9 "green"; mkBlock 13 10 "green";
     mkBlock 12 10 "green"; mkBlock 11 10 "green"] kLeft 0.

(** ** The snake *)

Section SnakeFacts.

Variable s : Snake.

Lemma next_some b0 rest :
  body s = b0 :: rest ->
  Snake.next s = Some (x b0 + at_index kDx (code (direction s)),
                       y b0 + at_index kDy (code (direction s))).
Proof. intros E. unfold Snake.next. now rewrite E. Qed.

Lemma extend_some b0 rest nx ny :
  body s = b0 :: rest ->
  Snake.next s = Some (nx, ny) ->
  Snake.extend s =
    Some (mkSnake (direction s)
            (mkBlock nx ny snakeHeadColor
               :: Snake.recolor snakeBodyColor b0 :: rest)
            (direction s) (listeners s)).
Proof. intros E N. unfold Snake.extend. now rewrite N, E. Qed.

Lemma extend_inv s' :
  Snake.extend s = Some s' ->
  exists b0 rest nx ny,
    body s = b0 :: rest /\ Snake.next s = Some (nx, ny) /\
    s' = mkSnake (direction s)
           (mkBlock nx ny snakeHeadColor
              :: Snake.recolor snakeBodyColor b0 :: rest)
           (direction s) (listeners s).
Proof.
  unfold Snake.extend.
  destruct (Snake.next s) as [[nx ny]|] eqn:N; [|discriminate].
  destruct (body s) as [|b0 rest] eqn:E; [discriminate|].
  intros [= <-]. now exists b0, rest, nx, ny.
Qed.

Lemma move_inv s' :
  Snake.move s = Some s' ->
  exists s1, Snake.extend s = Some s1 /\ s' = Snake.pop s1.
Proof.
  unfold Snake.move. destruct (Snake.extend s) as [s1|]; [|discriminate].
  intros [= <-]. now exists s1.
Qed.

End SnakeFacts.

(** [direction ^ 1] is the code of the direction that undoes [d]. *)
Lemma verse_undoes d :
  at_index kDx (Z.lxor (code d) 1) = - at_index kDx (code d) /\
  at_index kDy (Z.lxor (code d) 1) = - at_index kDy (code d).
Proof. destruct d; cbn; auto. Qed.

Lemma verse_same_axis d d' :
  code d' = Z.lxor (code d) 1 ->
  Z.shiftr (code d') 1 = Z.shiftr (code d) 1.
Proof. intros ->. destruct d; reflexivity. Qed.

Lemma updateDirection_rejects d s :
  Z.shiftr (code d) 1 = Z.shiftr (code (lastMove s)) 1 ->
  Snake.updateDirection d s = s.
Proof.
  intros E. unfold Snake.updateDirection.
  now rewrite (proj2 (Z.eqb_eq _ _) E).
Qed.

Lemma updateDirection_accepts d s :
  Z.shiftr (code d) 1 <> Z.shiftr (code (lastMove s)) 1 ->
  direction (Snake.updateDirection d s) = d.
Proof.
  intros E. unfold Snake.updateDirection.
  now rewrite (proj2 (Z.eqb_neq _ _) E).
Qed.

Lemma updateDirection_body d s : body (Snake.updateDirection d s) = body s.
Proof.
  unfold Snake.updateDirection.
  now destruct (Z.shiftr (code d) 1 =? Z.shiftr (code (lastMove s)) 1).
Qed.

Lemma onKey_body key s : body (Snake.onKey key s) = body s.
Proof.
  unfold Snake.onKey.
  repeat match goal with
         | |- context [if ?c then _ else _] => destruct c
         end; auto using updateDirection_body.
Qed.

(** *** Lists: what [pop] and the loop from index 4 see *)

Lemma removelast_cons2 {A} (a b : A) l :
  removelast (a :: b :: l) = a :: removelast (b :: l).
Proof. reflexivity. Qed.

Lemma removelast_length {A} (l : list A) :
  length (removelast l) = pred (length l).
Proof.
  induction l as [|a [|b l] IH]; try reflexivity.
  rewrite removelast_cons2. cbn [length]. rewrite IH. reflexivity.
Qed.

Lemma removelast_map {A B} (f : A -> B) l :
  map f (removelast l) = removelast (map f l).
Proof.
  induction l as [|a [|b l] IH]; try reflexivity.
  rewrite removelast_cons2. cbn [map]. rewrite IH. reflexivity.
Qed.

Lemma removelast_In {A} (a : A) l : In a (removelast l) -> In a l.
Proof.
  induction l as [|b [|c l] IH]; cbn in *; tauto.
Qed.

Lemma chained_removelast l : chained l -> chained (removelast l).
Proof.
  induction l as [|a [|b [|c l]] IH]; try (cbn; tauto).
  intros [Hab Hrest]. rewrite removelast_cons2.
  specialize (IH Hrest). rewrite removelast_cons2 in *.
  split; assumption.
Qed.

Lemma chained_nth l : forall i a b,
  chained l ->
  nth_error l i = Some a -> nth_error l (S i) = Some b -> adjacent a b.
Proof.
  induction l as [|h t IH]; intros i a b C Ha Hb.
  - destruct i; discriminate.
  - destruct t as [|h' t']; [destruct i; discriminate|].
    destruct C as [Hadj Crest].
    destruct i as [|i].
    + cbn in Ha, Hb. now injection Ha as <-; injection Hb as <-.
    + apply (IH i); assumption.
Qed.

Lemma existsb_skipn {A} (f : A -> bool) : forall n l,
  existsb f (skipn n l) = true <->
  exists i b, (n <= i)%nat /\ nth_error l i = Some b /\ f b = true.
Proof.
  induction n as [|n IH]; intros l.
  - rewrite skipn_O. rewrite existsb_exists. split.
    + intros (b & Hin & Hf). apply In_nth_error in Hin as (i & Hi).
      exists i, b. repeat split; auto. lia.
    + intros (i & b & _ & Hi & Hf). exists b. split; auto.
      eapply nth_error_In; eauto.
  - destruct l as [|a l].
    + cbn. split; [discriminate|].
      intros (i & b & _ & Hi & _). destruct i; discriminate.
    + cbn [skipn]. rewrite IH. split.
      * intros (i & b & Hle & Hi & Hf). exists (S i), b.
        repeat split; auto. lia.
      * intros (i & b & Hle & Hi & Hf). destruct i as [|i]; [lia|].
        exists i, b. repeat split; auto. lia.
Qed.

Lemma hits_true cx cy b :
  Snake.hits cx cy b = true <-> x b = cx /\ y b = cy.
Proof.
  unfold Snake.hits. rewrite andb_true_iff, !Z.eqb_eq. tauto.
Qed.

Lemma existsb_hits l cx cy :
  existsb (Snake.hits cx cy) l = true <-> occupied l cx cy.
Proof.
  rewrite existsb_exists. unfold occupied.
  split; intros (b & Hin & H); exists b; split; auto; now apply hits_true.
Qed.

Lemma out_of_grid_test nx ny :
  (nx <? 0) || (nx >=? rows) || (ny <? 0) || (ny >=? cols) = true <->
  (nx < 0 \/ nx >= rows \/ ny < 0 \/ ny >= cols).
Proof.
  rewrite !orb_true_iff, !Z.ltb_lt, !Z.geb_le. lia.
Qed.

(** ** Properties of the snake *)

(** C3.  A request for a direction on the axis of the last committed
    direction [d] (the same direction or the one that undoes it, whose
    code is [d ^ 1]) is rejected by [#updateDirection]: the snake is
    left as it was, so its current direction is unchanged, and is still
    [d] if it was [d], which is the case right after [extend] has
    committed [d]. *)
Theorem updateDirection_same_axis_noop :
  forall (s : Snake) (d req : Direction),
    lastMove s = d ->
    Z.shiftr (code req) 1 = Z.shiftr (code d) 1 \/
    code req = Z.lxor (code d) 1 ->
    Snake.updateDirection req s = s /\
    direction (Snake.updateDirection req s) = direction s /\
    (direction s = d -> direction (Snake.updateDirection req s) = d) /\
    (forall s0, Snake.extend s0 = Some s ->
                direction (Snake.updateDirection req s) = d).
Proof.
  intros s d req L A.
  assert (E : Snake.updateDirection req s = s).
  { apply updateDirection_rejects. rewrite L.
    destruct A as [A|A]; [exact A|now apply verse_same_axis]. }
  rewrite E. repeat split; auto.
  intros s0 X. apply extend_inv in X as (b0 & rest & nx & ny & _ & _ & ->).
  cbn in *. congruence.
Qed.

Lemma updateDirection_same_axis_noop_witness :
  lastMove fresh_snake = kRight /\
  code kLeft = Z.lxor (code kRight) 1 /\
  Snake.updateDirection kLeft fresh_snake = fresh_snake /\
  direction (Snake.updateDirection kLeft fresh_snake) = kRight.
Proof.
  destruct (updateDirection_same_axis_noop fresh_snake kRight kLeft
              eq_refl (or_intror eq_refl))
    as (E & _ & D & _).
  split; [reflexivity|]. split; [reflexivity|].
  split; [exact E|apply D; reflexivity].
Defined.

(** C8.  [extend] on a snake with a head [b0]: the body gets exactly one
    block longer; the new first block is at [next()] with the head
    colour; the old head keeps its cell and is recoloured to the body
    colour, which differs from the head colour; the rest of the body is
    untouched; the current direction is kept and committed as the last
    move. *)
Theorem extend_grows :
  forall (s : Snake) (b0 : Block) (rest : list Block),
    body s = b0 :: rest ->
    exists nx ny s' h p,
      Snake.next s = Some (nx, ny) /\
      Snake.extend s = Some s' /\
      length (body s') = S (length (body s)) /\
      body s' = h :: p :: rest /\
      x h = nx /\ y h = ny /\ color h = snakeHeadColor /\
      x p = x b0 /\ y p = y b0 /\ color p = snakeBodyColor /\
      color h <> color p /\
      lastMove s' = direction s /\
      direction s' = direction s.
Proof.
  intros s b0 rest E.
  pose proof (next_some s b0 rest E) as N.
  pose proof (extend_some s b0 rest _ _ E N) as X.
  do 5 eexists. split; [exact N|]. split; [exact X|].
  cbn. rewrite E. repeat split; try reflexivity.
  cbv. discriminate.
Qed.

Lemma extend_grows_witness :
  body fresh_snake = [mkBlock 10 10 "orange"; mkBlock 9 10 "green"] /\
  Snake.extend fresh_snake =
    Some (mkSnake kRight
            [mkBlock 11 10 "orange"; mkBlock 10 10 "green";
             mkBlock 9 10 "green"] kRight 0).
Proof.
  split; [reflexivity|].
  destruct (extend_grows fresh_snake (mkBlock 10 10 "orange")
              [mkBlock 9 10 "green"] eq_refl)
    as (nx & ny & s' & h & p & N & X & _).
  rewrite X. vm_compute in X. exact (eq_sym X).
Defined.

(** C7.  [move] on a snake with a non-empty body is [extend] followed
    by [pop]: the length of the body is unchanged, its cells are
    [next()] followed by the old cells without the last one, so that, as
    multisets, the new cells together with the old tail cell are the old
    cells together with [next()]. *)
Theorem move_is_extend_then_pop :
  forall (s : Snake),
    body s <> [] ->
    exists nx ny s1 s2,
      Snake.next s = Some (nx, ny) /\
      Snake.extend s = Some s1 /\
      Snake.move s = Some s2 /\
      s2 = Snake.pop s1 /\
      length (body s2) = length (body s) /\
      map cell (body s2) = (nx, ny) :: removelast (map cell (body s)) /\
      Permutation (map cell (body s2) ++ [last (map cell (body s)) (nx, ny)])
                  ((nx, ny) :: map cell (body s)).
Proof.
  intros s NE.
  destruct (body s) as [|b0 rest] eqn:E; [congruence|].
  pose proof (next_some s b0 rest E) as N.
  pose proof (extend_some s b0 rest _ _ E N) as X.
  do 4 eexists. split; [exact N|]. split; [exact X|].
  unfold Snake.move. rewrite X. split; [reflexivity|]. split; [reflexivity|].
  cbn [Snake.pop body].
  set (nx := x b0 + _). set (ny := y b0 + _).
  assert (C : map cell (removelast
                (mkBlock nx ny snakeHeadColor
                   :: Snake.recolor snakeBodyColor b0 :: rest))
              = (nx, ny) :: removelast (map cell (b0 :: rest))).
  { rewrite removelast_map. reflexivity. }
  split; [|split].
  - rewrite removelast_length. reflexivity.
  - exact C.
  - rewrite C. cbn [app]. apply perm_skip.
    rewrite <- app_removelast_last by discriminate.
    apply Permutation_refl.
Qed.

Lemma move_is_extend_then_pop_witness :
  body fresh_snake <> [] /\
  Snake.move fresh_snake =
    Some (mkSnake kRight [mkBlock 11 10 "orange"; mkBlock 10 10 "green"]
            kRight 0).
Proof.
  assert (NE : body fresh_snake <> []) by discriminate.
  split; [exact NE|].
  destruct (move_is_extend_then_pop fresh_snake NE)
    as (nx & ny & s1 & s2 & _ & _ & M & _).
  rewrite M. vm_compute in M. exact (eq_sym M).
Defined.

(** The claim that [checkMove] is false exactly when [next()] lies on a
    segment of index 4 or more fails at a wall: a two-block snake with
    its head in the last column and heading right cannot move, and has
    no segment of index 4 at all. *)
Lemma checkMove_wall_counterexample :
  Snake.next edge_snake = Some (30, 10) /\
  Snake.checkMove edge_snake = Some false /\
  ~ collides_from_4 edge_snake 30 10 /\
  ~ (Snake.checkMove edge_snake = Some false <->
     collides_from_4 edge_snake 30 10).
Proof.
  assert (N : ~ collides_from_4 edge_snake 30 10).
  { intros (i & b & Hi & Hb & _).
    do 4 (destruct i as [|i]; [lia|]). destruct i; discriminate. }
  repeat split; try reflexivity; try exact N.
  intros [H _]. apply N, H. reflexivity.
Qed.

(** C2, amended.  For a snake whose [next()] is the cell [(nx, ny)]:
    [checkMove] returns false exactly when that cell is outside the grid
    or lies on a body segment of index 4 or more; and it returns true
    exactly when the cell is inside the grid and every segment lying on
    it has an index below 4, so the segments of index 0 to 3 never make
    it false. *)
Theorem checkMove_false_iff :
  forall (s : Snake) (nx ny : Z),
    Snake.next s = Some (nx, ny) ->
    (Snake.checkMove s = Some false <->
       (nx < 0 \/ nx >= rows \/ ny < 0 \/ ny >= cols) \/
       collides_from_4 s nx ny) /\
    (Snake.checkMove s = Some true <->
       in_grid nx ny /\
       forall i b, nth_error (body s) i = Some b ->
                   x b = nx -> y b = ny -> (i < 4)%nat).
Proof.
  intros s nx ny N. unfold Snake.checkMove. rewrite N.
  pose proof (out_of_grid_test nx ny) as O.
  pose proof (existsb_skipn (Snake.hits nx ny) 4 (body s)) as K.
  assert (K' : existsb (Snake.hits nx ny) (skipn 4 (body s)) = true <->
               collides_from_4 s nx ny).
  { rewrite K. unfold collides_from_4.
    split; intros (i & b & Hi & Hb & H); exists i, b;
      (split; [exact Hi|split; [exact Hb|now apply hits_true]]). }
  clear K.
  destruct ((nx <? 0) || (nx >=? rows) || (ny <? 0) || (ny >=? cols)) eqn:EO.
  - assert (OUT : nx < 0 \/ nx >= rows \/ ny < 0 \/ ny >= cols)
      by now apply O.
    split; split; try discriminate; auto.
    intros [[G1 G2] _]. exfalso. lia.
  - assert (IN : in_grid nx ny).
    { unfold in_grid.
      assert (~ (nx < 0 \/ nx >= rows \/ ny < 0 \/ ny >= cols)).
      { intros H. apply O in H. discriminate. }
      lia. }
    destruct (existsb (Snake.hits nx ny) (skipn 4 (body s))) eqn:EK.
    + assert (C : collides_from_4 s nx ny) by now apply K'.
      split; split; try discriminate; auto.
      intros [_ H]. destruct C as (i & b & Hi & Hb & Hx & Hy).
      specialize (H i b Hb Hx Hy). lia.
    + assert (NC : ~ collides_from_4 s nx ny).
      { intros C. apply K' in C. discriminate. }
      split; split; try discriminate; auto.
      * intros [H|H]; [unfold in_grid in IN; lia|contradiction].
      * intros _. split; [exact IN|].
        intros i b Hb Hx Hy.
        destruct (Nat.lt_ge_cases i 4) as [L|G]; [exact L|].
        exfalso. apply NC. now exists i, b.
Qed.

Lemma checkMove_false_iff_witness :
  Snake.next edge_snake = Some (30, 10) /\
  Snake.checkMove edge_snake = Some false.
Proof.
  split; [reflexivity|].
  apply (proj1 (checkMove_false_iff edge_snake 30 10 eq_refl)).
  left. right. left. unfold rows. lia.
Defined.

(** A segment of index 3 can lie on [next()] and the move is allowed:
    after three extensions the snake turns up, left and down inside a
    square of two by two cells, and its head then enters the cell of
    the segment that was at index 3. *)
Lemma checkMove_allows_index_3 :
  exists s s',
    snake_reachable s /\
    Snake.next s = Some (12, 10) /\
    option_map cell (nth_error (body s) 3) = Some (12, 10) /\
    Snake.checkMove s = Some true /\
    Snake.move s = Some s' /\
    option_map cell (nth_error (body s') 0) = Some (12, 10) /\
    option_map cell (nth_error (body s') 4) = Some (12, 10).
Proof.
  pose (s0 := new_Snake 10 10 kRight).
  pose (s1 := mkSnake kRight
                [mkBlock 11 10 "orange"; mkBlock 10 10 "green";
                 mkBlock 9 10 "green"] kRight 0).
  pose (s2 := mkSnake kRight
                [mkBlock 12 10 "orange"; mkBlock 11 10 "green";
                 mkBlock 10 10 "green"; mkBlock 9 10 "green"] kRight 0).
  pose (s3 := mkSnake kRight
                [mkBlock 13 10 "orange"; mkBlock 12 10 "green";
                 mkBlock 11 10 "green"; mkBlock 10 10 "green";
                 mkBlock 9 10 "green"] kRight 0).
  pose (s4 := mkSnake kUp
                [mkBlock 13 9 "orange"; mkBlock 13 10 "green";
                 mkBlock 12 10 "green"; mkBlock 11 10 "green";
                 mkBlock 10 10 "green"] kUp 0).
  pose (s5 := mkSnake kLeft
                [mkBlock 12 9 "orange"; mkBlock 13 9 "green";
                 mkBlock 13 10 "green"; mkBlock 12 10 "green";
                 mkBlock 11 10 "green"] kLeft 0).
  assert (R3 : snake_reachable s3).
  { apply (sr_extend s2); [|reflexivity].
    apply (sr_extend s1); [|reflexivity].
    apply (sr_extend s0); [|reflexivity]. apply sr_new. }
  assert (R4 : snake_reachable s4).
  { apply (sr_move (Snake.updateDirection kUp s3)); [|reflexivity].
    now apply sr_direction. }
  assert (R5 : snake_reachable s5).
  { apply (sr_move (Snake.updateDirection kLeft s4)); [|reflexivity].
    now apply sr_direction. }
  exists (Snake.updateDirection kDown s5). eexists.
  split; [now apply sr_direction|].
  repeat split; reflexivity.
Qed.

Lemma adjacent_ahead d b0 c c' :
  adjacent (mkBlock (x b0 + at_index kDx (code d))
                    (y b0 + at_index kDy (code d)) c)
           (Snake.recolor c' b0).
Proof.
  destruct d; unfold adjacent, at_index, Snake.recolor; simpl; lia.
Qed.

Lemma adjacent_behind d sx sy c c' :
  adjacent (mkBlock sx sy c)
           (mkBlock (sx + at_index kDx (Z.lxor (code d) 1))
                    (sy + at_index kDy (Z.lxor (code d) 1)) c').
Proof.
  destruct d; unfold adjacent, at_index, Snake.recolor; simpl; lia.
Qed.

Lemma chained_recolor c b0 rest :
  chained (b0 :: rest) -> chained (Snake.recolor c b0 :: rest).
Proof. destruct rest as [|b1 rest]; [trivial|]. intros [A C]. now split. Qed.

Lemma chained_extend s s' :
  chained (body s) -> Snake.extend s = Some s' -> chained (body s').
Proof.
  intros C X.
  apply extend_inv in X as (b0 & rest & nx & ny & E & N & ->).
  rewrite (next_some s b0 rest E) in N. injection N as <- <-.
  rewrite E in C. cbn [body]. split.
  - apply adjacent_ahead.
  - now apply chained_recolor.
Qed.

Lemma chained_reachable s : snake_reachable s -> chained (body s).
Proof.
  induction 1 as [sx sy d|s s' _ IH X|s s' _ IH M|s d _ IH|s _ IH|s _ IH].
  - split; [apply adjacent_behind|exact I].
  - now apply (chained_extend s).
  - apply move_inv in M as (s1 & X & ->).
    apply chained_removelast. now apply (chained_extend s).
  - now rewrite updateDirection_body.
  - exact IH.
  - exact IH.
Qed.

(** ** Food placement *)

Lemma list_pair_ind {A} (P : list A -> Prop) :
  P [] -> (forall a, P [a]) ->
  (forall a b l, P l -> P (a :: b :: l)) ->
  forall l, P l.
Proof.
  intros H0 H1 H2 l.
  assert (H : P l /\ forall a, P (a :: l)).
  { induction l as [|b l [IH1 IH2]]; split; auto. }
  exact (proj1 H).
Qed.

Lemma random_in_range r n :
  0 < n -> unit_interval r -> 0 <= random r 0 (n - 1) < n.
Proof.
  intros Hn [H0 H1]. unfold random.
  replace (n - 1 - 0 + 1) with n by ring. rewrite Z.add_0_r.
  assert (Hq : (0 < inject_Z n)%Q).
  { change 0%Q with (inject_Z 0). now rewrite <- Zlt_Qlt. }
  split.
  - change 0 with (Qfloor 0). apply Qfloor_resp_le.
    apply Qmult_le_0_compat; [exact H0|now apply Qlt_le_weak].
  - rewrite Zlt_Qlt.
    apply Qle_lt_trans with (r * inject_Z n)%Q; [apply Qfloor_le|].
    apply Qlt_le_trans with (1 * inject_Z n)%Q.
    + now apply Qmult_lt_compat_r.
    + rewrite Qmult_1_l. apply Qle_refl.
Qed.

(** A value of [Math.random()] for which [random(0, 29)] is [c]. *)
Lemma random_hits c : random (c # 30) 0 29 = c.
Proof.
  unfold random, Qfloor, Qmult, inject_Z. cbn [Qnum Qden].
  change (Z.pos (30 * 1)) with 30. change (29 - 0 + 1) with 30.
  rewrite Z.div_mul by discriminate. ring.
Qed.

Lemma unit_interval_cell c : 0 <= c < 30 -> unit_interval (c # 30).
Proof.
  intros [H0 H1]. unfold unit_interval, Qle, Qlt. cbn. lia.
Qed.

Lemma blockExist_false g cx cy :
  blockExist g cx cy = false <->
  ~ (cx = x (food g) /\ cy = y (food g)) /\
  ~ occupied (body (snake g)) cx cy.
Proof.
  unfold blockExist.
  destruct ((cx =? x (food g)) && (cy =? y (food g))) eqn:F.
  - apply andb_true_iff in F as [F1 F2].
    apply Z.eqb_eq in F1, F2. split; [discriminate|tauto].
  - assert (NF : ~ (cx = x (food g) /\ cy = y (food g))).
    { intros [F1 F2]. apply Z.eqb_eq in F1, F2.
      rewrite F1, F2 in F. discriminate. }
    rewrite <- existsb_hits.
    destruct (existsb (Snake.hits cx cy) (body (snake g))).
    + split; [discriminate|]. intros [_ H]. exfalso. now apply H.
    + split; [|reflexivity]. intros _. split; [exact NF|discriminate].
Qed.

(** The round that ends the retry loop drew a cell that [blockExist]
    does not know, and the values drawn are a prefix of the supply. *)
Lemma sample_cell_ok g : forall rs cx cy rs',
  sample_cell g rs = Ok (cx, cy, rs') ->
  blockExist g cx cy = false /\
  exists used rx ry,
    rs = used ++ rx :: ry :: rs' /\
    cx = random rx 0 (rows - 1) /\ cy = random ry 0 (cols - 1).
Proof.
  induction rs as [|r0|rx ry rs IH] using list_pair_ind;
    intros cx cy rs' H; try discriminate.
  cbn [sample_cell] in H.
  destruct (blockExist g (random rx 0 (rows - 1)) (random ry 0 (cols - 1)))
    eqn:B.
  - destruct (IH _ _ _ H) as (HB & used & rx' & ry' & -> & Hx & Hy).
    split; [exact HB|].
    exists (rx :: ry :: used), rx', ry'. repeat split; assumption.
  - injection H as <- <- <-. split; [exact B|].
    exists [], rx, ry. repeat split.
Qed.

(** The retry loop skips a rejected round and stops at an accepted
    one, so it returns as soon as a round draws a free cell. *)
Lemma sample_cell_retry g rx ry rs :
  blockExist g (random rx 0 (rows - 1)) (random ry 0 (cols - 1)) = true ->
  sample_cell g (rx :: ry :: rs) = sample_cell g rs.
Proof. intros B. cbn [sample_cell]. now rewrite B. Qed.

Lemma sample_cell_accept g rx ry rs :
  blockExist g (random rx 0 (rows - 1)) (random ry 0 (cols - 1)) = false ->
  sample_cell g (rx :: ry :: rs)
  = Ok (random rx 0 (rows - 1), random ry 0 (cols - 1), rs).
Proof. intros B. cbn [sample_cell]. now rewrite B. Qed.

(** Whenever some cell is free, there are values of [Math.random()] on
    which [updateFood] returns with the food on that cell. *)
Lemma updateFood_can_return g cx cy rs :
  blockExist g cx cy = false ->
  updateFood g ((cx # 30) :: (cy # 30) :: rs)
  = Ok (set_food (mkBlock cx cy (color (food g))) g, rs).
Proof.
  intros B. unfold updateFood. rewrite sample_cell_accept.
  - change (rows - 1) with 29. change (cols - 1) with 29.
    now rewrite !random_hits.
  - change (rows - 1) with 29. change (cols - 1) with 29.
    now rewrite !random_hits.
Qed.

Lemma updateFood_inv g rs g' rs' :
  updateFood g rs = Ok (g', rs') ->
  exists cx cy,
    sample_cell g rs = Ok (cx, cy, rs') /\
    g' = set_food (mkBlock cx cy (color (food g))) g.
Proof.
  unfold updateFood.
  destruct (sample_cell g rs) as [[[cx cy] rs1]| |]; try discriminate.
  intros [= <- <-]. now exists cx, cy.
Qed.

(** C6.  When [updateFood] returns, having drawn values of
    [Math.random()] that lie in [0, 1): the new food cell is on no body
    segment, differs from the food cell it replaces, and lies inside
    the grid (under the source's reading of the bounds, [x] against
    [rows] and [y] against [cols], and under the specification's, which
    agree since both are 30); only the two coordinates of the food
    change. *)
Theorem updateFood_free_cell :
  forall (g : Game) (rs : list Q) (g' : Game) (rs' : list Q),
    Forall unit_interval rs ->
    updateFood g rs = Ok (g', rs') ->
    ~ occupied (body (snake g)) (x (food g')) (y (food g')) /\
    cell (food g') <> cell (food g) /\
    in_grid (x (food g')) (y (food g')) /\
    (0 <= x (food g') < cols /\ 0 <= y (food g') < rows) /\
    g' = set_food (mkBlock (x (food g')) (y (food g')) (color (food g))) g.
Proof.
  intros g rs g' rs' U H.
  apply updateFood_inv in H as (cx & cy & H & ->).
  apply sample_cell_ok in H as (B & used & rx & ry & -> & Hx & Hy).
  apply blockExist_false in B as [NF NO].
  assert (Ux : unit_interval rx).
  { rewrite Forall_forall in U. apply U.
    apply in_or_app. right. now left. }
  assert (Uy : unit_interval ry).
  { rewrite Forall_forall in U. apply U.
    apply in_or_app. right. right. now left. }
  assert (Rx : 0 <= cx < rows).
  { rewrite Hx. apply random_in_range; [reflexivity|exact Ux]. }
  assert (Ry : 0 <= cy < cols).
  { rewrite Hy. apply random_in_range; [reflexivity|exact Uy]. }
  cbn [food set_food x y]. repeat split; try tauto.
  unfold cell. intros [= E1 E2]. apply NF. now split.
Qed.

Lemma updateFood_free_cell_witness :
  Forall unit_interval food_samples /\
  updateFood main food_samples
  = Ok (set_food (new_Food 10 20) main, []) /\
  ~ occupied (body (snake main)) 10 20.
Proof.
  assert (U : Forall unit_interval food_samples).
  { repeat constructor; discriminate. }
  assert (E : updateFood main food_samples
              = Ok (set_food (new_Food 10 20) main, []))
    by reflexivity.
  split; [exact U|]. split; [exact E|].
  exact (proj1 (updateFood_free_cell main food_samples _ _ U E)).
Defined.

(** ** One tick *)

Lemma updateFood_snake g rs g' rs' :
  updateFood g rs = Ok (g', rs') -> snake g' = snake g.
Proof.
  intros H. apply updateFood_inv in H as (cx & cy & _ & ->). reflexivity.
Qed.

Lemma tick_inv g rs fl rs' :
  tick g rs = Ok (fl, rs') -> tick_spec g rs fl rs'.
Proof.
  unfold tick.
  destruct (Snake.eatFood (snake g) (food g)) as [[|]|] eqn:E;
    [| |discriminate].
  - change (updateScores _) with (scored g).
    destruct (updateFood (scored g) rs) as [[g4 rs1]| |] eqn:U;
      try discriminate.
    rewrite (updateFood_snake _ _ _ _ U). cbn [scored snake updateScores
      set_highestScore set_score].
    destruct (Snake.extend (snake g)) as [s'|] eqn:X; [|discriminate].
    intros [= <- <-]. now apply tick_eat.
  - destruct (Snake.checkMove (snake g)) as [[|]|] eqn:C; [| |discriminate].
    + destruct (Snake.move (snake g)) as [s'|] eqn:M; [|discriminate].
      intros [= <- <-]. now apply tick_move.
    + intros [= <- <-]. now apply tick_over.
Qed.

Lemma set_snake_same g : set_snake (snake g) g = g.
Proof. now destruct g. Qed.

(** ** Invariants of a run

    A property of the globals holds along every run once it survives
    each assignment the script can make. *)
Section Invariant.

Variable P : Game -> Prop.

Hypothesis P_tick : forall g rs fl rs',
  P g -> tick g rs = Ok (fl, rs') -> P (flow_game fl).
Hypothesis P_reset : forall g, P g -> P (resetGame g).
Hypothesis P_start : forall t g, P g -> P (set_start t g).
Hypothesis P_prevTime : forall t g, P g -> P (set_prevTime t g).
Hypothesis P_status : forall st g, P g -> P (set_gameStatus st g).
Hypothesis P_requested : forall n g, P g -> P (set_requested n g).
Hypothesis P_scores : forall g, P g -> P (updateScores g).
Hypothesis P_draw : forall g, P g -> P (drawFrame g).
Hypothesis P_bind : forall g, P g -> P (bindKeys g).
Hypothesis P_unbind : forall g, P g -> P (unbindKeys g).
Hypothesis P_key : forall key g,
  P g -> P (set_snake (Snake.onKey key (snake g)) g).

Lemma for_ticks_preserves : forall n g rs fl rs',
  P g -> for_ticks n g rs = Ok (fl, rs') -> P (flow_game fl).
Proof.
  induction n as [|n IH]; intros g rs fl rs' Hg H.
  - injection H as <- <-. exact Hg.
  - cbn [for_ticks] in H.
    destruct (tick g rs) as [[[g1|g1] rs1]| |] eqn:T; try discriminate.
    + apply (IH g1 rs1 fl rs'); [|exact H]. exact (P_tick _ _ _ _ Hg T).
    + injection H as <- <-. exact (P_tick _ _ _ _ Hg T).
Qed.

Lemma baseline_preserves time g : P g -> P (baseline time g).
Proof. unfold baseline. destruct (start g); auto. Qed.

Lemma loop_preserves time g rs g' rs' :
  P g -> loop time g rs = Ok (g', rs') -> P g'.
Proof.
  intros Hg. unfold loop.
  destruct (gameStatus g); try (intros [= <- <-]; exact Hg).
  destruct (for_ticks _ _ rs) as [[[g2|g2] rs2]| |] eqn:F;
    try discriminate; intros [= <- <-];
    apply for_ticks_preserves in F; auto using baseline_preserves.
  unfold requestAnimationFrame. apply P_requested.
  destruct (at_least_one _); auto.
Qed.

Lemma initGame_preserves g : P g -> P (initGame g).
Proof. unfold initGame. auto. Qed.

Lemma click_preserves b g : P g -> P (click b g).
Proof.
  intros Hg.
  destruct b; cbn [click]; destruct (gameStatus g);
    unfold requestAnimationFrame; auto 8 using initGame_preserves.
Qed.

Lemma keydown_preserves key g : P g -> P (keydown key g).
Proof.
  intros Hg. unfold keydown.
  induction (listeners (snake g)) as [|n IH]; cbn [Nat.iter nat_rect].
  - now rewrite set_snake_same.
  - exact (P_key key _ IH).
Qed.

Lemma step_preserves g g' : step g g' -> P g -> P g'.
Proof.
  intros [g0 n time rs g1 rs1 R L|g0 b|g0 key] Hg.
  - apply (loop_preserves _ _ _ _ _ (P_requested n _ Hg) L).
  - now apply click_preserves.
  - now apply keydown_preserves.
Qed.

Lemma steps_preserve g g' : steps g g' -> P g -> P g'.
Proof.
  induction 1 as [g|g g1 g2 _ IH S]; intros Hg; [exact Hg|].
  exact (step_preserves _ _ S (IH Hg)).
Qed.

End Invariant.

(** *** What a tick reads from the snake *)

Lemma eatFood_true s f :
  Snake.eatFood s f = Some true <-> Snake.next s = Some (x f, y f).
Proof.
  unfold Snake.eatFood. destruct (Snake.next s) as [[nx ny]|].
  - destruct ((nx =? x f) && (ny =? y f)) eqn:E.
    + apply andb_true_iff in E as [E1 E2]. apply Z.eqb_eq in E1, E2.
      subst. tauto.
    + split; [discriminate|]. intros [= E1 E2]. subst.
      now rewrite !Z.eqb_refl in E.
  - split; discriminate.
Qed.

Lemma eatFood_false s f :
  Snake.eatFood s f = Some false <->
  exists nx ny, Snake.next s = Some (nx, ny) /\ ~ (nx = x f /\ ny = y f).
Proof.
  unfold Snake.eatFood. destruct (Snake.next s) as [[nx ny]|].
  - destruct ((nx =? x f) && (ny =? y f)) eqn:E.
    + apply andb_true_iff in E as [E1 E2]. apply Z.eqb_eq in E1, E2.
      split; [discriminate|]. intros (a & b & [= <- <-] & N). tauto.
    + split; [|reflexivity]. intros _. exists nx, ny. split; [reflexivity|].
      intros [E1 E2]. subst. now rewrite !Z.eqb_refl in E.
  - split; [discriminate|]. intros (a & b & N & _). discriminate.
Qed.

Lemma occupied_extend s s' nx ny cx cy :
  Snake.next s = Some (nx, ny) ->
  Snake.extend s = Some s' ->
  occupied (body s') cx cy ->
  (cx = nx /\ cy = ny) \/ occupied (body s) cx cy.
Proof.
  intros N X (b & Hin & Hx & Hy).
  apply extend_inv in X as (b0 & rest & nx' & ny' & E & N' & ->).
  rewrite N in N'. injection N' as <- <-. rewrite E.
  cbn [body] in Hin. destruct Hin as [<-|[<-|Hin]].
  - left. cbn in Hx, Hy. now split.
  - right. exists b0. cbn in Hx, Hy. repeat split; auto. now left.
  - right. exists b. repeat split; auto. now right.
Qed.

Lemma occupied_move s s' nx ny cx cy :
  Snake.next s = Some (nx, ny) ->
  Snake.move s = Some s' ->
  occupied (body s') cx cy ->
  (cx = nx /\ cy = ny) \/ occupied (body s) cx cy.
Proof.
  intros N M (b & Hin & Hx & Hy).
  apply move_inv in M as (s1 & X & ->).
  apply (occupied_extend s s1 nx ny cx cy N X).
  exists b. repeat split; auto. now apply removelast_In.
Qed.

(** *** The food stays off the snake *)

(** In the eating branch the new food is drawn while the food still
    lies on [next()]: [blockExist] rejects that cell, so the head that
    [extend] inserts there afterwards cannot land on the new food. *)
Lemma eat_keeps_food_free g rs g4 rs' s' :
  food_free g ->
  Snake.eatFood (snake g) (food g) = Some true ->
  updateFood (scored g) rs = Ok (g4, rs') ->
  Snake.extend (snake g) = Some s' ->
  Snake.next (snake g) <> Some (x (food g4), y (food g4)) /\
  food_free (drawFrame (set_snake s' g4)).
Proof.
  intros Hg E U X.
  apply eatFood_true in E.
  apply updateFood_inv in U as (cx & cy & SC & ->).
  apply sample_cell_ok in SC as (B & _).
  apply blockExist_false in B as [NF NO].
  cbn [scored updateScores set_highestScore set_score food snake] in NF, NO.
  cbn [food set_food x y]. split.
  - rewrite E. intros [= E1 E2]. apply NF. now split.
  - unfold food_free.
    cbn [drawFrame set_snake set_food snake food x y].
    intros O.
    destruct (occupied_extend _ _ _ _ _ _ E X O) as [[E1 E2]|O'].
    + apply NF. now split.
    + now apply NO.
Qed.

Lemma tick_keeps_food_free g rs fl rs' :
  food_free g -> tick g rs = Ok (fl, rs') -> food_free (flow_game fl).
Proof.
  intros Hg T. apply tick_inv in T.
  destruct T as [g4 rs' s' E U X|s' E C M|E C]; cbn [flow_game].
  - exact (proj2 (eat_keeps_food_free g rs g4 rs' s' Hg E U X)).
  - apply eatFood_false in E as (nx & ny & N & NE).
    unfold food_free. cbn [drawFrame set_snake snake food].
    intros O.
    destruct (occupied_move _ _ _ _ _ _ N M O) as [[E1 E2]|O'].
    + apply NE. now split.
    + now apply Hg.
  - exact Hg.
Qed.

Lemma resetGame_food_free g : food_free (resetGame g).
Proof.
  unfold food_free. cbn.
  intros (b & [<-|[<-|[]]] & Hx & Hy); discriminate.
Qed.

Lemma steps_keep_food_free g g' : steps g g' -> food_free g -> food_free g'.
Proof.
  intros S. apply (steps_preserve food_free) with (g := g); auto.
  - exact tick_keeps_food_free.
  - intros g0 _. apply resetGame_food_free.
  - intros key g0 H. unfold food_free in *.
    cbn [set_snake snake food]. now rewrite onKey_body.
Qed.

Lemma main_food_free : food_free main.
Proof. apply resetGame_food_free. Qed.

(** *** The highest score *)

Lemma tick_eat_scores g rs fl rs' :
  Snake.eatFood (snake g) (food g) = Some true ->
  tick g rs = Ok (fl, rs') ->
  score (flow_game fl) = score g + 1 /\
  highestScore (flow_game fl) = Z.max (score g + 1) (highestScore g).
Proof.
  intros E T. apply tick_inv in T.
  destruct T as [g4 rs' s' _ U X|s' E' _ _|E' _]; try congruence.
  apply updateFood_inv in U as (cx & cy & _ & ->). now cbn.
Qed.

Lemma tick_highestScore g rs fl rs' :
  tick g rs = Ok (fl, rs') ->
  highestScore g <= highestScore (flow_game fl).
Proof.
  intros T.
  destruct (Snake.eatFood (snake g) (food g)) as [[|]|] eqn:E.
  - destruct (tick_eat_scores g rs fl rs' E T) as [_ ->]. lia.
  - apply tick_inv in T.
    destruct T as [g4 rs' s' E' _ _|s' _ _ _|_ _]; try congruence;
      cbn; lia.
  - unfold tick in T. rewrite E in T. discriminate.
Qed.

Lemma steps_highestScore g g' :
  steps g g' -> highestScore g <= highestScore g'.
Proof.
  intros S.
  apply (steps_preserve (fun g1 => highestScore g <= highestScore g1))
    with (g := g); auto; try lia.
  intros g0 rs fl rs' H T. pose proof (tick_highestScore _ _ _ _ T). lia.
Qed.

(** *** The snake of the game is a snake of the class *)

Lemma onKey_reachable key s :
  snake_reachable s -> snake_reachable (Snake.onKey key s).
Proof.
  intros R. unfold Snake.onKey.
  repeat match goal with
         | |- context [if ?c then _ else _] => destruct c
         end; auto using sr_direction.
Qed.

Lemma tick_snake_reachable g rs fl rs' :
  snake_reachable (snake g) ->
  tick g rs = Ok (fl, rs') ->
  snake_reachable (snake (flow_game fl)).
Proof.
  intros H T. apply tick_inv in T.
  destruct T as [g4 rs' s' _ U X|s' _ _ M|_ _]; cbn.
  - exact (sr_extend _ _ H X).
  - exact (sr_move _ _ H M).
  - exact H.
Qed.

Lemma steps_snake_reachable g g' :
  steps g g' -> snake_reachable (snake g) -> snake_reachable (snake g').
Proof.
  intros S.
  apply (steps_preserve (fun g1 => snake_reachable (snake g1)))
    with (g := g); auto.
  - exact tick_snake_reachable.
  - intros g0 _. apply sr_new.
  - intros g0 H. now apply sr_bind.
  - intros g0 H. now apply sr_unbind.
  - intros key g0 H. now apply onKey_reachable.
Qed.

Lemma main_snake_reachable : snake_reachable (snake main).
Proof. apply sr_new. Qed.

Lemma snake_reachable_two s : snake_reachable s -> (2 <= length (body s))%nat.
Proof.
  induction 1 as [sx sy d|s s' _ IH X|s s' _ IH M|s d _ IH|s _ IH|s _ IH];
    try exact IH.
  - cbn. lia.
  - apply extend_inv in X as (b0 & rest & nx & ny & E & _ & ->).
    rewrite E in IH. cbn in *. lia.
  - apply move_inv in M as (s1 & X & ->).
    apply extend_inv in X as (b0 & rest & nx & ny & E & _ & ->).
    rewrite E in IH. cbn [Snake.pop body]. rewrite removelast_length.
    cbn in *. lia.
  - now rewrite updateDirection_body.
Qed.

(** *** No [TypeError]

    The body of a snake of the class is never empty, so no method reads
    a head that is not there: a frame callback never throws. *)

Lemma sample_cell_never_throws g rs : sample_cell g rs <> Thrown.
Proof.
  induction rs as [|r0|rx ry rs IH] using list_pair_ind; try discriminate.
  cbn [sample_cell]. destruct (blockExist g _ _); [exact IH|discriminate].
Qed.

Lemma tick_never_throws g rs : body (snake g) <> [] -> tick g rs <> Thrown.
Proof.
  destruct (body (snake g)) as [|b0 rest] eqn:E; [congruence|]. intros _.
  pose proof (next_some _ b0 rest E) as N.
  pose proof (extend_some _ b0 rest _ _ E N) as X.
  unfold tick, Snake.eatFood. rewrite N.
  destruct (_ && _).
  - unfold updateFood.
    pose proof (sample_cell_never_throws
                  (updateScores
                     (set_highestScore
                        (Z.max (score (set_score (score g + 1) g))
                           (highestScore (set_score (score g + 1) g)))
                        (set_score (score g + 1) g))) rs) as NT.
    destruct (sample_cell _ rs) as [[[cx cy] rs1]| |];
      [|congruence|discriminate].
    cbn [snake set_food updateScores set_highestScore set_score].
    rewrite X. discriminate.
  - unfold Snake.checkMove, Snake.move. rewrite N, X.
    destruct (_ || _); [discriminate|].
    destruct (existsb _ _); discriminate.
Qed.

Lemma for_ticks_never_throws : forall n g rs,
  snake_reachable (snake g) -> for_ticks n g rs <> Thrown.
Proof.
  induction n as [|n IH]; intros g rs R; [discriminate|].
  cbn [for_ticks].
  assert (NE : body (snake g) <> []).
  { pose proof (snake_reachable_two _ R) as L.
    destruct (body (snake g)); [cbn in L; lia|discriminate]. }
  pose proof (tick_never_throws g rs NE) as NT.
  destruct (tick g rs) as [[[g1|g1] rs1]| |] eqn:T;
    [|discriminate|congruence|discriminate].
  apply IH. exact (tick_snake_reachable _ _ _ _ R T).
Qed.

Lemma loop_never_throws time g rs :
  snake_reachable (snake g) -> loop time g rs <> Thrown.
Proof.
  intros R. unfold loop. destruct (gameStatus g); try discriminate.
  assert (R' : snake_reachable (snake (baseline time g)))
    by (unfold baseline; now destruct (start g)).
  pose proof (for_ticks_never_throws
                (rounds (elapsed_ticks time (prevTime (baseline time g))))
                (baseline time g) rs R') as NT.
  destruct (for_ticks _ _ rs) as [[[g2|g2] rs2]| |];
    [discriminate|discriminate|congruence|discriminate].
Qed.

Lemma reachable_never_throws g time rs n :
  reachable g -> loop time (set_requested n g) rs <> Thrown.
Proof.
  intros R. apply loop_never_throws. cbn [snake set_requested].
  exact (steps_snake_reachable main g R (sr_new _ _ _)).
Qed.

(** *** A list of events is a run *)

Lemma fire_steps g0 g e : steps g0 g -> steps g0 (fire g e).
Proof.
  intros S. destruct e as [time rs|b|key]; cbn [fire].
  - destruct (requested g) as [|n] eqn:R; [exact S|].
    destruct (loop time (set_requested n g) rs) as [[g' rs']| |] eqn:L;
      try exact S.
    apply (steps_next _ g); [exact S|]. exact (step_frame _ _ _ _ _ _ R L).
  - apply (steps_next _ g); [exact S|]. apply step_click.
  - apply (steps_next _ g); [exact S|]. apply step_key.
Qed.

Lemma run_steps es : forall g0 g, steps g0 g -> steps g0 (run es g).
Proof.
  induction es as [|e es IH]; intros g0 g S; [exact S|].
  cbn [run fold_left]. apply IH. now apply fire_steps.
Qed.

Lemma run_reachable es : reachable (run es main).
Proof. apply run_steps. apply steps_refl. Qed.

(** ** Properties of the game *)

(** C1.  In every state the game can reach, no body segment of the
    snake lies on the food's cell.  In particular, when a tick eats,
    the food that [updateFood] has just relocated is not on the cell
    [next()] where [extend] then inserts the new head, and the state
    after that tick again has the food off the snake. *)
Theorem food_never_on_snake :
  forall (g : Game),
    reachable g ->
    food_free g /\
    (forall rs fl rs',
        Snake.eatFood (snake g) (food g) = Some true ->
        tick g rs = Ok (fl, rs') ->
        Snake.next (snake g)
          <> Some (x (food (flow_game fl)), y (food (flow_game fl))) /\
        food_free (flow_game fl)).
Proof.
  intros g R.
  assert (Hg : food_free g).
  { apply (steps_keep_food_free main g R). apply main_food_free. }
  split; [exact Hg|].
  intros rs fl rs' E T. apply tick_inv in T.
  destruct T as [g4 rs' s' _ U X|s' E' _ _|E' _]; try congruence.
  exact (eat_keeps_food_free g rs g4 rs' s' Hg E U X).
Qed.

Lemma food_never_on_snake_witness :
  reachable about_to_eat /\
  Snake.eatFood (snake about_to_eat) (food about_to_eat) = Some true /\
  (exists fl, tick about_to_eat food_samples = Ok (fl, [])
              /\ cell (food (flow_game fl)) = (10, 20)
              /\ food_free (flow_game fl)) /\
  food_free about_to_eat.
Proof.
  assert (R : reachable about_to_eat).
  { unfold about_to_eat, heading_right. apply run_steps, run_reachable. }
  destruct (food_never_on_snake about_to_eat R) as [F E].
  split; [exact R|]. split; [reflexivity|]. split; [|exact F].
  pose (rs := food_samples).
  pose (fl := match tick about_to_eat rs with
              | Ok (fl, _) => fl
              | _ => Return about_to_eat
              end).
  assert (T : tick about_to_eat rs = Ok (fl, []))
    by (vm_compute; reflexivity).
  exists fl. split; [exact T|]. split; [vm_compute; reflexivity|].
  exact (proj2 (E rs fl [] eq_refl T)).
Defined.

(** C4.  Along every sequence of frames, clicks and key presses the
    highest score never decreases.  A tick that eats adds one to the
    score and sets the highest score to the maximum of that new score
    and the old highest score; [resetGame], and with it an accepted
    start or restart, set the score to 0 and keep the highest score;
    no click changes the highest score. *)
Theorem highestScore_never_decreases :
  forall (g g' : Game),
    steps g g' ->
    highestScore g <= highestScore g' /\
    (forall rs fl rs',
        Snake.eatFood (snake g) (food g) = Some true ->
        tick g rs = Ok (fl, rs') ->
        score (flow_game fl) = score g + 1 /\
        highestScore (flow_game fl)
          = Z.max (score g + 1) (highestScore g)) /\
    (score (resetGame g) = 0 /\
     highestScore (resetGame g) = highestScore g) /\
    (gameStatus g = StEnd -> score (click btnStart g) = 0) /\
    (gameStatus g = StRun -> score (click btnRestart g) = 0) /\
    (forall b, highestScore (click b g) = highestScore g).
Proof.
  intros g g' S.
  split; [now apply steps_highestScore|].
  split; [intros rs fl rs'; apply tick_eat_scores|].
  split; [split; reflexivity|].
  split; [intros E; cbn [click]; now rewrite E|].
  split; [intros E; cbn [click]; now rewrite E|].
  intros b. destruct b; cbn [click]; destruct (gameStatus g); reflexivity.
Qed.

Lemma highestScore_never_decreases_witness :
  steps about_to_eat played_again /\
  highestScore about_to_eat = 0 /\
  highestScore played_again = 1 /\ score played_again = 0 /\
  highestScore about_to_eat <= highestScore played_again.
Proof.
  assert (S : steps about_to_eat played_again)
    by (apply run_steps, steps_refl).
  split; [exact S|]. repeat (split; [reflexivity|]).
  exact (proj1 (highestScore_never_decreases about_to_eat played_again S)).
Defined.

(** C10.  In every snake that the constructor and the methods of the
    class can produce, any two consecutive body segments are one unit
    step apart along exactly one coordinate; the body built by the
    constructor has this property and [extend] and [move] keep it. *)
Theorem body_segments_adjacent :
  forall (s : Snake),
    snake_reachable s ->
    (forall i a b,
        nth_error (body s) i = Some a ->
        nth_error (body s) (S i) = Some b ->
        adjacent a b) /\
    (forall s', Snake.extend s = Some s' -> chained (body s')) /\
    (forall s', Snake.move s = Some s' -> chained (body s')).
Proof.
  intros s R. split; [|split].
  - intros i a b. apply chained_nth. now apply chained_reachable.
  - intros s' X. apply chained_reachable. exact (sr_extend s s' R X).
  - intros s' M. apply chained_reachable. exact (sr_move s s' R M).
Qed.

Lemma body_segments_adjacent_witness :
  snake_reachable (snake about_to_eat) /\
  adjacent (mkBlock 14 15 "orange") (mkBlock 14 14 "green").
Proof.
  assert (R : snake_reachable (snake about_to_eat)).
  { apply (steps_snake_reachable main).
    - unfold about_to_eat, heading_right. apply run_steps, run_reachable.
    - apply main_snake_reachable. }
  split; [exact R|].
  apply (proj1 (body_segments_adjacent _ R) 0%nat); reflexivity.
Defined.

(** *** Game over *)

Lemma tick_blocked g rs :
  Snake.eatFood (snake g) (food g) = Some false ->
  Snake.checkMove (snake g) = Some false ->
  tick g rs = Ok (Return (alert (set_gameStatus StEnd g)), rs).
Proof. intros E C. unfold tick. now rewrite E, C. Qed.

(** A tick that falls through to the next round raises no alert,
    requests no frame and leaves status and time baselines alone. *)
Lemma tick_continue_page g rs g' rs' :
  tick g rs = Ok (Continue g', rs') ->
  alerts g' = alerts g /\ requested g' = requested g /\
  gameStatus g' = gameStatus g /\
  start g' = start g /\ prevTime g' = prevTime g.
Proof.
  intros T. apply tick_inv in T.
  inversion T as [g4 rs1 s' E U X|s' E C M|E C]; subst.
  - apply updateFood_inv in U as (cx & cy & _ & ->). now cbn.
  - now cbn.
Qed.

Lemma for_ticks_continue_page : forall n g rs g' rs',
  for_ticks n g rs = Ok (Continue g', rs') ->
  alerts g' = alerts g /\ requested g' = requested g /\
  gameStatus g' = gameStatus g /\
  start g' = start g /\ prevTime g' = prevTime g.
Proof.
  induction n as [|n IH]; intros g rs g' rs' H.
  - injection H as <- <-. tauto.
  - cbn [for_ticks] in H.
    destruct (tick g rs) as [[[g1|g1] rs1]| |] eqn:T; try discriminate.
    destruct (tick_continue_page _ _ _ _ T) as (A & R & S & B & Q).
    destruct (IH _ _ _ _ H) as (A' & R' & S' & B' & Q').
    repeat split; congruence.
Qed.

Lemma for_ticks_app : forall k m g rs gk rsk,
  for_ticks k g rs = Ok (Continue gk, rsk) ->
  for_ticks (k + m) g rs = for_ticks m gk rsk.
Proof.
  induction k as [|k IH]; intros m g rs gk rsk H.
  - injection H as <- <-. reflexivity.
  - cbn [for_ticks Nat.add] in *.
    destruct (tick g rs) as [[[g1|g1] rs1]| |]; try discriminate.
    now apply IH.
Qed.

Lemma loop_not_running time g rs :
  gameStatus g <> StRun -> loop time g rs = Ok (g, rs).
Proof. unfold loop. destruct (gameStatus g); congruence. Qed.

(** With the head in the last column and the snake heading right,
    [next()] is outside the grid and [checkMove] refuses. *)
Lemma checkMove_at_right_edge s b0 rest :
  body s = b0 :: rest -> x b0 = cols - 1 -> direction s = kRight ->
  Snake.checkMove s = Some false.
Proof.
  intros E X D. unfold Snake.checkMove. rewrite (next_some s b0 rest E).
  rewrite D, X. reflexivity.
Qed.

(** C5.  A frame in status run in which, after [k] ticks that went
    through, one more tick is due and finds [eatFood] false and
    [checkMove] false ends the game: the callback returns the state of
    that tick with the status set to end and one alert raised, the only
    alert of the frame; nothing else of the state of that tick changes
    (no later tick of the frame runs, nothing is drawn, the time
    baseline is not advanced) and no frame is requested.  Any later
    frame callback in that state returns it unchanged. *)
Theorem game_over_stops_the_loop :
  forall (time : Q) (g : Game) (rs : list Q)
         (k : nat) (gk : Game) (rsk : list Q),
    gameStatus g = StRun ->
    for_ticks k (baseline time g) rs = Ok (Continue gk, rsk) ->
    (k < rounds (elapsed_ticks time (prevTime (baseline time g))))%nat ->
    Snake.eatFood (snake gk) (food gk) = Some false ->
    Snake.checkMove (snake gk) = Some false ->
    let g_end := alert (set_gameStatus StEnd gk) in
    loop time g rs = Ok (g_end, rsk) /\
    gameStatus g_end = StEnd /\
    alerts g_end = S (alerts g) /\
    requested g_end = requested g /\
    (snake g_end = snake gk /\ food g_end = food gk /\
     score g_end = score gk /\ highestScore g_end = highestScore gk /\
     drawn g_end = drawn gk /\ prevTime g_end = prevTime gk) /\
    (forall time' rs', loop time' g_end rs' = Ok (g_end, rs')).
Proof.
  intros time g rs k gk rsk Run F K E C g_end.
  destruct (for_ticks_continue_page _ _ _ _ _ F) as (A & R & _).
  assert (A0 : alerts (baseline time g) = alerts g)
    by (unfold baseline; now destruct (start g)).
  assert (R0 : requested (baseline time g) = requested g)
    by (unfold baseline; now destruct (start g)).
  split; [|split; [|split; [|split; [|split]]]].
  - unfold loop. rewrite Run.
    set (n := rounds _) in *.
    replace n with (k + S (n - S k))%nat by lia.
    rewrite (for_ticks_app _ _ _ _ _ _ F). cbn [for_ticks].
    now rewrite (tick_blocked gk rsk E C).
  - reflexivity.
  - cbn. congruence.
  - cbn. congruence.
  - repeat split.
  - intros time' rs'. now apply loop_not_running.
Qed.

Lemma game_over_stops_the_loop_witness :
  exists gk,
    for_ticks 15 (baseline 10000 heading_right) [] = Ok (Continue gk, []) /\
    option_map cell (nth_error (body (snake gk)) 0) = Some (cols - 1, 10) /\
    direction (snake gk) = kRight /\
    loop 10000 heading_right [] = Ok (alert (set_gameStatus StEnd gk), []) /\
    alerts (alert (set_gameStatus StEnd gk)) = 1%nat.
Proof.
  pose (gk := match for_ticks 15 (baseline 10000 heading_right) [] with
              | Ok (fl, _) => flow_game fl
              | _ => heading_right
              end).
  assert (F : for_ticks 15 (baseline 10000 heading_right) []
              = Ok (Continue gk, [])) by (vm_compute; reflexivity).
  assert (K : (15 < rounds (elapsed_ticks 10000
                      (prevTime (baseline 10000 heading_right))))%nat).
  { apply Nat.ltb_lt. vm_compute. reflexivity. }
  exists gk. split; [exact F|].
  split; [vm_compute; reflexivity|]. split; [vm_compute; reflexivity|].
  destruct (game_over_stops_the_loop 10000 heading_right [] 15 gk []
              eq_refl F K eq_refl eq_refl) as (L & _ & A & _).
  split; [exact L|]. exact A.
Defined.

(** *** Frames in which no tick is due *)

Lemma no_time_elapsed time : Qfloor ((time - time) / 250) = 0.
Proof.
  assert (E : ((time - time) / 250 == 0)%Q) by field.
  rewrite E. reflexivity.
Qed.

(** The claim that a frame with no full tick elapsed leaves the time
    baseline alone fails on the first frame after a resume: the game was
    resumed with the baseline at 1000, the callback runs at 1100, under
    a tick later (whether counted from the baseline before the call or
    from the one the call sets), and moves the baseline to 1100. *)
Lemma idle_frame_counterexample :
  reachable just_resumed /\
  gameStatus just_resumed = StRun /\
  prevTime just_resumed = Some 1000%Q /\
  elapsed_ticks 1100 (prevTime just_resumed) = Some 0 /\
  elapsed_ticks 1100 (prevTime (baseline 1100 just_resumed)) = Some 0 /\
  exists g',
    loop 1100 just_resumed [] = Ok (g', []) /\
    prevTime g' = Some 1100%Q /\
    prevTime g' <> prevTime just_resumed /\
    ~ (1100 == 1000)%Q.
Proof.
  split; [apply run_reachable|]. repeat (split; [reflexivity|]).
  eexists. split; [reflexivity|]. split; [reflexivity|].
  split; discriminate.
Qed.

(** C9, amended.  A frame callback in status run, whatever the random
    supply, only requests the next frame when no tick is due: if the
    time baseline is set ([start] is defined) and
    [floor((time - prevTime) / 250)] is 0, it leaves snake, food, score,
    highest score, status, [start] and [prevTime] unchanged; if [start]
    is undefined (the first frame after a start, resume or restart) it
    sets [start] and [prevTime] to [time] and leaves the rest
    unchanged. *)
Theorem idle_frame_only_reschedules :
  forall (time : Q) (g : Game) (rs : list Q),
    gameStatus g = StRun ->
    (start g <> None ->
     elapsed_ticks time (prevTime g) = Some 0 ->
     loop time g rs = Ok (requestAnimationFrame g, rs)) /\
    (start g = None ->
     loop time g rs
     = Ok (requestAnimationFrame
             (set_start (Some time) (set_prevTime (Some time) g)), rs)) /\
    (forall g' rs',
        loop time g rs = Ok (g', rs') ->
        start g = None \/ elapsed_ticks time (prevTime g) = Some 0 ->
        snake g' = snake g /\ food g' = food g /\
        score g' = score g /\ highestScore g' = highestScore g /\
        gameStatus g' = gameStatus g /\
        requested g' = S (requested g) /\ rs' = rs /\
        (start g <> None ->
         start g' = start g /\ prevTime g' = prevTime g)).
Proof.
  intros time g rs Run.
  assert (L1 : start g <> None ->
               elapsed_ticks time (prevTime g) = Some 0 ->
               loop time g rs = Ok (requestAnimationFrame g, rs)).
  { intros S E. unfold loop, baseline. rewrite Run.
    destruct (start g) as [t0|]; [|congruence]. now rewrite E. }
  assert (L2 : start g = None ->
               loop time g rs
               = Ok (requestAnimationFrame
                       (set_start (Some time)
                          (set_prevTime (Some time) g)), rs)).
  { intros S. unfold loop, baseline. rewrite Run, S.
    cbn [prevTime set_start set_prevTime elapsed_ticks].
    now rewrite no_time_elapsed. }
  split; [exact L1|]. split; [exact L2|].
  intros g' rs' L H.
  destruct (start g) as [t0|] eqn:S.
  - destruct H as [H|H]; [discriminate|].
    rewrite L1 in L by (try discriminate; assumption).
    injection L as <- <-. now cbn.
  - rewrite L2 in L by reflexivity.
    injection L as <- <-. cbn. repeat split; congruence.
Qed.

Lemma idle_frame_only_reschedules_witness :
  gameStatus heading_right = StRun /\
  start heading_right <> None /\
  elapsed_ticks 1200 (prevTime heading_right) = Some 0 /\
  loop 1200 heading_right [] = Ok (requestAnimationFrame heading_right, []).
Proof.
  assert (S : start heading_right <> None) by discriminate.
  split; [reflexivity|]. split; [exact S|]. split; [reflexivity|].
  exact (proj1 (idle_frame_only_reschedules 1200 heading_right [] eq_refl)
           S eq_refl).
Defined.

(** * Further properties of the script *)

(** ** [random] and [randomColor] *)



(** X2.  [randomColor()] never returns a colour: whatever the stack
    depth available, the call ends in the engine's stack overflow. *)
Theorem randomColor_never_returns :
  forall (depth : nat), randomColor depth = None.
Proof.
  induction depth as [|d IH]; [reflexivity|].
  cbn [randomColor]. now rewrite IH.
Qed.

(** ** Shape of the snake *)

Lemma Forall_removelast {A} (P : A -> Prop) l :
  Forall P l -> Forall P (removelast l).
Proof.
  intros F. rewrite Forall_forall in *. intros a H.
  apply F. now apply removelast_In.
Qed.



Lemma snake_shape s :
  snake_reachable s ->
  (2 <= length (body s))%nat /\ coloured (body s) /\ neck_behind s.
Proof.
  induction 1 as [sx sy d|s s' _ IH X|s s' _ IH M|s d _ IH|s _ IH|s _ IH];
    try exact IH.
  - split; [cbn; lia|]. split.
    + split; [reflexivity|]. repeat constructor.
    + split; [|now left]. cbn [new_Snake body lastMove x y].
      destruct (verse_undoes d) as [-> ->]. lia.
  - destruct IH as (L & C & N).
    apply extend_inv in X as (b0 & rest & nx & ny & E & Nx & ->).
    rewrite (next_some s b0 rest E) in Nx. injection Nx as <- <-.
    rewrite E in L, C. cbn [body lastMove direction].
    split; [cbn in *; lia|]. split.
    + destruct C as [_ C]. split; [reflexivity|].
      constructor; [reflexivity|exact C].
    + split; [|now left]. cbn. lia.
  - destruct IH as (L & C & N).
    apply move_inv in M as (s1 & X & ->).
    apply extend_inv in X as (b0 & rest & nx & ny & E & Nx & ->).
    rewrite (next_some s b0 rest E) in Nx. injection Nx as <- <-.
    rewrite E in L, C.
    destruct rest as [|b1 rest]; [cbn in L; lia|].
    unfold neck_behind. cbn [Snake.pop body lastMove direction].
    rewrite !removelast_cons2.
    split; [|split].
    + cbn [length]. rewrite removelast_length. cbn in *. lia.
    + destruct C as [_ C]. split; [reflexivity|].
      constructor; [reflexivity|].
      apply (Forall_removelast _ (b1 :: rest)). now inversion C.
    + split; [|now left]. cbn. lia.
  - destruct IH as (L & C & [N G]).
    rewrite updateDirection_body. split; [exact L|]. split; [exact C|].
    unfold neck_behind, Snake.updateDirection.
    destruct (Z.shiftr (code d) 1 =? Z.shiftr (code (lastMove s)) 1) eqn:A.
    + split; assumption.
    + cbn [body lastMove direction]. split; [exact N|].
      right. now apply Z.eqb_neq.
Qed.

(** X3.  Every snake the class can produce has at least two blocks; its
    first block has the head colour and all the others the body colour,
    so exactly one block is drawn as the head. *)
Theorem snake_two_blocks_one_head :
  forall (s : Snake),
    snake_reachable s ->
    (2 <= length (body s))%nat /\
    exists h t,
      body s = h :: t /\ color h = snakeHeadColor /\
      forall b, In b t -> color b = snakeBodyColor /\ color b <> color h.
Proof.
  intros s R. destruct (snake_shape s R) as (L & C & _).
  split; [exact L|].
  destruct (body s) as [|h t]; [contradiction|].
  destruct C as [Ch Ct]. exists h, t. repeat split; auto.
  - rewrite Forall_forall in Ct. now apply Ct.
  - rewrite Forall_forall in Ct. rewrite (Ct b H), Ch. discriminate.
Qed.

Lemma coiled_reachable : snake_reachable coiled.
Proof.
  pose (s1 := mkSnake kRight
                [mkBlock 11 10 "orange"; mkBlock 10 10 "green";
                 mkBlock 9 10 "green"] kRight 0).
  pose (s2 := mkSnake kRight
                [mkBlock 12 10 "orange"; mkBlock 11 10 "green";
                 mkBlock 10 10 "green"; mkBlock 9 10 "green"] kRight 0).
  pose (s3 := mkSnake kRight
                [mkBlock 13 10 "orange"; mkBlock 12 10 "green";
                 mkBlock 11 10 "green"; mkBlock 10 10 "green";
                 mkBlock 9 10 "green"] kRight 0).
  pose (s4 := mkSnake kUp
                [mkBlock 13 9 "orange"; mkBlock 13 10 "green";
                 mkBlock 12 10 "green"; mkBlock 11 10 "green";
                 mkBlock 10 10 "green"] kUp 0).
  pose (s5 := mkSnake kLeft
                [mkBlock 12 9 "orange"; mkBlock 13 9 "green";
                 mkBlock 13 10 "green"; mkBlock 12 10 "green";
                 mkBlock 11 10 "green"] kLeft 0).
  assert (R3 : snake_reachable s3).
  { apply (sr_extend s2); [|reflexivity].
    apply (sr_extend s1); [|reflexivity].
    apply (sr_extend fresh_snake); [|reflexivity]. apply sr_new. }
  assert (R4 : snake_reachable s4).
  { apply (sr_move (Snake.updateDirection kUp s3)); [|reflexivity].
    now apply sr_direction. }
  assert (R5 : snake_reachable s5).
  { apply (sr_move (Snake.updateDirection kLeft s4)); [|reflexivity].
    now apply sr_direction. }
  change coiled with (Snake.updateDirection kDown s5).
  now apply sr_direction.
Qed.

Lemma snake_two_blocks_one_head_witness :
  snake_reachable coiled /\ (2 <= length (body coiled))%nat.
Proof.
  split; [exact coiled_reachable|].
  exact (proj1 (snake_two_blocks_one_head coiled coiled_reachable)).
Defined.



Lemma checkMove_accepts s nx ny :
  Snake.next s = Some (nx, ny) ->
  in_grid nx ny -> ~ collides_from_4 s nx ny ->
  Snake.checkMove s = Some true.
Proof.
  intros N [Gx Gy] NC. unfold Snake.checkMove. rewrite N.
  destruct ((nx <? 0) || (nx >=? rows) || (ny <? 0) || (ny >=? cols)) eqn:O.
  - apply out_of_grid_test in O. lia.
  - destruct (existsb (Snake.hits nx ny) (skipn 4 (body s))) eqn:K;
      [|reflexivity].
    exfalso. apply NC. apply existsb_skipn in K as (i & b & I & B & H).
    apply hits_true in H. now exists i, b.
Qed.

(** X5.  The loop of [checkMove] starts one block too late for a snake
    of five blocks or more: when [next()] is the cell of the block at
    index 3 (inside the grid, and on no block from index 4 on),
    [checkMove] allows the move, and after [move()] the head shares its
    cell with the block now at index 4. *)
Theorem head_lands_on_fourth_block :
  forall (s : Snake) (nx ny : Z) (b3 : Block),
    Snake.next s = Some (nx, ny) ->
    nth_error (body s) 3 = Some b3 ->
    x b3 = nx -> y b3 = ny ->
    (5 <= length (body s))%nat ->
    in_grid nx ny ->
    ~ collides_from_4 s nx ny ->
    Snake.checkMove s = Some true /\
    exists s',
      Snake.move s = Some s' /\
      option_map cell (nth_error (body s') 0) = Some (nx, ny) /\
      option_map cell (nth_error (body s') 4) = Some (nx, ny).
Proof.
  intros s nx ny b3 N B Hx Hy L G NC.
  split; [now apply (checkMove_accepts s nx ny)|].
  destruct (body s) as [|a0 [|a1 [|a2 [|a3 [|a4 rest]]]]] eqn:E;
    try (cbn in L; lia).
  injection B as ->.
  pose proof (extend_some s a0 _ nx ny E N) as X.
  eexists. split; [unfold Snake.move; now rewrite X|].
  cbn [Snake.pop body]. rewrite !removelast_cons2. cbn.
  unfold cell. now rewrite Hx, Hy.
Qed.

Lemma head_lands_on_fourth_block_witness :
  snake_reachable coiled /\
  Snake.next coiled = Some (12, 10) /\
  nth_error (body coiled) 3 = Some (mkBlock 12 10 "green") /\
  Snake.checkMove coiled = Some true /\
  option_map (fun s' => map cell (body s')) (Snake.move coiled)
  = Some [(12, 10); (12, 9); (13, 9); (13, 10); (12, 10)].
Proof.
  split; [exact coiled_reachable|]. split; [reflexivity|].
  split; [reflexivity|]. split; [|reflexivity].
  assert (NC : ~ collides_from_4 coiled 12 10).
  { intros (i & b & I & B & Hx & Hy).
    do 4 (destruct i as [|i]; [lia|]).
    destruct i as [|i]; [|destruct i; discriminate].
    injection B as <-. discriminate. }
  assert (G : in_grid 12 10) by (unfold in_grid, rows, cols; lia).
  exact (proj1 (head_lands_on_fourth_block coiled 12 10
                  (mkBlock 12 10 "green") eq_refl eq_refl eq_refl eq_refl
                  ltac:(cbn; lia) G NC)).
Defined.


(** ** The retry loop of [updateFood] *)

Lemma drawn_values_retry g pre rest :
  forallb (rejected g) pre = true ->
  sample_cell g (drawn_values pre ++ rest) = sample_cell g rest.
Proof.
  induction pre as [|[rx ry] pre IH]; intros F; [reflexivity|].
  cbn [forallb] in F. apply andb_true_iff in F as [Fr Fp].
  cbn [drawn_values app]. rewrite sample_cell_retry by exact Fr.
  now apply IH.
Qed.

(** X7.  [updateFood] returns the cell of the first round that
    [blockExist] does not reject, and leaves the values after that
    round undrawn; as long as every round is rejected it keeps drawing
    (it has not returned when the values supplied are used up, also when
    one value is left over for half a round). *)
Theorem updateFood_first_free_round :
  forall (g : Game) (pre : list (Q * Q)),
    forallb (rejected g) pre = true ->
    (forall r rs,
        rejected g r = false ->
        updateFood g (drawn_values pre ++ fst r :: snd r :: rs)
        = Ok (set_food (mkBlock (fst (round_cell r)) (snd (round_cell r))
                          (color (food g))) g, rs)) /\
    updateFood g (drawn_values pre) = Starved /\
    (forall r0, updateFood g (drawn_values pre ++ [r0]) = Starved).
Proof.
  intros g pre F. unfold updateFood. split; [|split].
  - intros r rs A. rewrite (drawn_values_retry g pre _ F).
    rewrite sample_cell_accept by exact A. reflexivity.
  - rewrite <- (app_nil_r (drawn_values pre)).
    now rewrite (drawn_values_retry g pre _ F).
  - intros r0. now rewrite (drawn_values_retry g pre _ F).
Qed.

Lemma updateFood_first_free_round_witness :
  forallb (rejected main) [(1 # 2, 1 # 2)%Q] = true /\
  rejected main (1 # 3, 2 # 3)%Q = false /\
  updateFood main food_samples = Ok (set_food (new_Food 10 20) main, []).
Proof.
  split; [reflexivity|]. split; [reflexivity|].
  exact (proj1 (updateFood_first_free_round main [(1 # 2, 1 # 2)%Q] eq_refl)
           (1 # 3, 2 # 3)%Q [] eq_refl).
Defined.

(** ** Scores, length and the score display *)

Lemma extend_length s s' :
  Snake.extend s = Some s' -> length (body s') = S (length (body s)).
Proof.
  intros X. apply extend_inv in X as (b0 & rest & nx & ny & E & _ & ->).
  now rewrite E.
Qed.

Lemma move_length s s' :
  Snake.move s = Some s' -> length (body s') = length (body s).
Proof.
  intros M. apply move_inv in M as (s1 & X & ->).
  cbn [Snake.pop body]. rewrite removelast_length.
  now rewrite (extend_length s s1 X).
Qed.

(** X8.  In every state the game can reach, the snake has two blocks
    more than the score, and the score lies between 0 and the highest
    score. *)
Theorem length_is_score_plus_two :
  forall (g : Game),
    reachable g ->
    Z.of_nat (length (body (snake g))) = score g + 2 /\
    0 <= score g <= highestScore g.
Proof.
  intros g R.
  apply (steps_preserve
           (fun g1 => Z.of_nat (length (body (snake g1))) = score g1 + 2 /\
                      0 <= score g1 <= highestScore g1))
    with (g := main); auto.
  - intros g0 rs fl rs' [L S] T. apply tick_inv in T.
    destruct T as [g4 rs' s' _ U X|s' _ _ M|_ _]; cbn [flow_game].
    + apply updateFood_inv in U as (cx & cy & _ & ->).
      cbn. rewrite (extend_length _ _ X). lia.
    + cbn. rewrite (move_length _ _ M). lia.
    + cbn. lia.
  - intros g0 [L S]. cbn. lia.
  - intros key g0 [L S]. cbn [set_snake snake score highestScore].
    now rewrite onKey_body.
  - cbn. lia.
Qed.

Lemma length_is_score_plus_two_witness :
  reachable played_again /\
  score played_again = 0 /\ highestScore played_again = 1 /\
  Z.of_nat (length (body (snake played_again))) = score played_again + 2.
Proof.
  assert (R : reachable played_again).
  { unfold played_again, about_to_eat, heading_right.
    do 2 apply run_steps. apply run_reachable. }
  split; [exact R|]. split; [reflexivity|]. split; [reflexivity|].
  exact (proj1 (length_is_score_plus_two played_again R)).
Defined.

(** X9.  In every state the game can reach, the highest score on the
    page is the highest score, and the score on the page is the score
    unless the score is 0: a start after a lost game resets the score
    without calling [updateScores], and the page keeps showing the old
    score until the next meal. *)
Theorem page_shows_scores :
  forall (g : Game),
    reachable g ->
    fst (shown g) = highestScore g /\
    (snd (shown g) = score g \/ score g = 0).
Proof.
  intros g R.
  apply (steps_preserve
           (fun g1 => fst (shown g1) = highestScore g1 /\
                      (snd (shown g1) = score g1 \/ score g1 = 0)))
    with (g := main); auto.
  - intros g0 rs fl rs' [H S] T. apply tick_inv in T.
    destruct T as [g4 rs' s' _ U X|s' _ _ M|_ _]; cbn [flow_game].
    + apply updateFood_inv in U as (cx & cy & _ & ->). cbn. auto.
    + cbn. auto.
    + cbn. auto.
  - intros g0 [H S]. cbn. auto.
Qed.

Lemma page_shows_scores_witness :
  reachable lost_then_started /\
  gameStatus lost_then_started = StRun /\
  score lost_then_started = 0 /\
  shown lost_then_started = (1, 1) /\
  fst (shown lost_then_started) = highestScore lost_then_started.
Proof.
  assert (R : reachable lost_then_started).
  { unfold lost_then_started, about_to_eat, heading_right.
    do 2 apply run_steps. apply run_reachable. }
  split; [exact R|]. do 3 (split; [reflexivity|]).
  exact (proj1 (page_shows_scores lost_then_started R)).
Defined.

(** X10.  A frame callback never throws in a state the game can reach,
    whatever its timestamp and the values of [Math.random()]: the body
    of the snake is never empty when a method reads its head. *)
Theorem frame_never_throws :
  forall (g : Game),
    reachable g ->
    forall time rs n,
      loop time g rs <> Thrown /\
      loop time (set_requested n g) rs <> Thrown.
Proof.
  intros g R time rs n.
  pose proof (steps_snake_reachable main g R main_snake_reachable) as S.
  split; now apply loop_never_throws.
Qed.

Lemma frame_never_throws_witness :
  reachable about_to_eat /\
  loop 2500 about_to_eat food_samples <> Thrown /\
  loop 2500 about_to_eat [] = Starved.
Proof.
  assert (R : reachable about_to_eat).
  { unfold about_to_eat, heading_right. apply run_steps, run_reachable. }
  split; [exact R|]. split; [|reflexivity].
  exact (proj1 (frame_never_throws about_to_eat R 2500 food_samples 0%nat)).
Defined.

(** ** Keys *)

Lemma updateDirection_shape d s :
  exists d',
    Snake.updateDirection d s
    = mkSnake d' (body s) (lastMove s) (listeners s) /\
    (d' = direction s \/
     Z.shiftr (code d') 1 <> Z.shiftr (code (lastMove s)) 1).
Proof.
  unfold Snake.updateDirection.
  destruct (Z.shiftr (code d) 1 =? Z.shiftr (code (lastMove s)) 1) eqn:A.
  - exists (direction s). split; [now destruct s|now left].
  - exists d. split; [reflexivity|]. right. now apply Z.eqb_neq.
Qed.

Lemma onKey_shape key s :
  exists d',
    Snake.onKey key s = mkSnake d' (body s) (lastMove s) (listeners s) /\
    (d' = direction s \/
     Z.shiftr (code d') 1 <> Z.shiftr (code (lastMove s)) 1).
Proof.
  unfold Snake.onKey.
  repeat match goal with
         | |- context [if ?c then _ else _] => destruct c
         end; try apply updateDirection_shape.
  exists (direction s). split; [now destruct s|now left].
Qed.

Lemma onKeys_shape key n s :
  exists d',
    Nat.iter n (Snake.onKey key) s
    = mkSnake d' (body s) (lastMove s) (listeners s) /\
    (d' = direction s \/
     Z.shiftr (code d') 1 <> Z.shiftr (code (lastMove s)) 1).
Proof.
  induction n as [|n (d1 & E & G)].
  - exists (direction s). split; [now destruct s|now left].
  - rewrite Nat.iter_succ, E.
    destruct (onKey_shape key
                (mkSnake d1 (body s) (lastMove s) (listeners s)))
      as (d2 & E2 & G2).
    exists d2. split; [exact E2|]. cbn in G2.
    destruct G2 as [->|G2]; [exact G|now right].
Qed.

(** X11.  A key press changes nothing but the current direction of the
    snake (body, last move, listeners, food, scores, status, time
    baselines and page stay as they are), and the direction it leaves
    is the old one or one across the axis of the last move; a key other
    than w, a, s, d and the four arrows changes nothing at all. *)
Theorem keydown_changes_direction_only :
  forall (key : string) (g : Game),
    (exists d,
        keydown key g
        = set_snake (mkSnake d (body (snake g)) (lastMove (snake g))
                       (listeners (snake g))) g /\
        (d = direction (snake g) \/
         Z.shiftr (code d) 1 <> Z.shiftr (code (lastMove (snake g))) 1)) /\
    (~ In key ["w"; "ArrowUp"; "s"; "ArrowDown"; "a"; "ArrowLeft"; "d";
               "ArrowRight"]%string ->
     keydown key g = g).
Proof.
  intros key g. split.
  - unfold keydown.
    destruct (onKeys_shape key (listeners (snake g)) (snake g))
      as (d & E & G).
    exists d. now rewrite E.
  - intros N. unfold keydown.
    assert (I : forall s, Snake.onKey key s = s).
    { intros s. unfold Snake.onKey.
      repeat match goal with
             | |- context [(key =? ?k)%string] =>
                 destruct (String.eqb_spec key k) as [->|_];
                 [exfalso; apply N; cbn; tauto|]
             end.
      reflexivity. }
    assert (J : forall n s, Nat.iter n (Snake.onKey key) s = s).
    { induction n as [|n IH]; intros s; [reflexivity|].
      now rewrite Nat.iter_succ, IH, I. }
    rewrite J. apply set_snake_same.
Qed.

Lemma keydown_changes_direction_only_witness :
  ~ In "x"%string ["w"; "ArrowUp"; "s"; "ArrowDown"; "a"; "ArrowLeft"; "d";
                   "ArrowRight"]%string /\
  keydown "x" heading_right = heading_right.
Proof.
  assert (N : ~ In "x"%string
                ["w"; "ArrowUp"; "s"; "ArrowDown"; "a"; "ArrowLeft"; "d";
                 "ArrowRight"]%string).
  { cbn. intros H. repeat (destruct H as [H|H]; [discriminate|]).
    exact H. }
  split; [exact N|].
  exact (proj2 (keydown_changes_direction_only "x" heading_right) N).
Defined.

(** ** Status, pending frames and key listeners *)

Lemma tick_page g rs fl rs' :
  tick g rs = Ok (fl, rs') ->
  listeners (snake (flow_game fl)) = listeners (snake g) /\
  requested (flow_game fl) = requested g /\
  match fl with
  | Continue g' => gameStatus g' = gameStatus g /\ drawn g' = S (drawn g)
  | Return g' => gameStatus g' = StEnd /\ drawn g' = drawn g
  end.
Proof.
  intros T. apply tick_inv in T.
  destruct T as [g4 rs' s' _ U X|s' _ _ M|_ _]; cbn [flow_game].
  - apply updateFood_inv in U as (cx & cy & _ & ->).
    apply extend_inv in X as (b0 & rest & nx & ny & _ & _ & ->).
    now cbn.
  - apply move_inv in M as (s1 & X & ->).
    apply extend_inv in X as (b0 & rest & nx & ny & _ & _ & ->).
    now cbn.
  - now cbn.
Qed.

Lemma for_ticks_page : forall n g rs fl rs',
  for_ticks n g rs = Ok (fl, rs') ->
  listeners (snake (flow_game fl)) = listeners (snake g) /\
  requested (flow_game fl) = requested g /\
  match fl with
  | Continue g' =>
      gameStatus g' = gameStatus g /\ drawn g' = (drawn g + n)%nat
  | Return g' => gameStatus g' = StEnd
  end.
Proof.
  induction n as [|n IH]; intros g rs fl rs' H.
  - injection H as <- <-. cbn. auto.
  - cbn [for_ticks] in H.
    destruct (tick g rs) as [[[g1|g1] rs1]| |] eqn:T; try discriminate.
    + destruct (tick_page _ _ _ _ T) as (L1 & R1 & S1 & D1).
      destruct (IH _ _ _ _ H) as (L2 & R2 & S2).
      cbn [flow_game] in L1, R1.
      split; [congruence|]. split; [congruence|].
      destruct fl as [g'|g']; [|exact S2].
      destruct S2 as [S2 D2]. split; [congruence|]. lia.
    + injection H as <- <-.
      destruct (tick_page _ _ _ _ T) as (L1 & R1 & S1 & _).
      now cbn.
Qed.

Lemma at_least_one_rounds ticks :
  at_least_one ticks = true <-> (1 <= rounds ticks)%nat.
Proof.
  destruct ticks as [t|]; cbn; [|split; [discriminate|lia]].
  rewrite Z.leb_le. lia.
Qed.

Lemma Status_eq_dec_run (st : Status) : {st = StRun} + {st <> StRun}.
Proof. destruct st; [right|right|left]; congruence. Qed.

(** What a frame callback does to the page, case by case. *)
Lemma loop_page time g rs g' rs' :
  loop time g rs = Ok (g', rs') ->
  listeners (snake g') = listeners (snake g) /\
  (gameStatus g <> StRun -> g' = g) /\
  (gameStatus g = StRun ->
   (gameStatus g' = StRun /\ requested g' = S (requested g)) \/
   (gameStatus g' = StEnd /\ requested g' = requested g)).
Proof.
  intros L.
  destruct (Status_eq_dec_run (gameStatus g)) as [Run|NRun].
  - unfold loop in L. rewrite Run in L.
    assert (B : listeners (snake (baseline time g)) = listeners (snake g)
                /\ requested (baseline time g) = requested g
                /\ gameStatus (baseline time g) = StRun).
    { unfold baseline. destruct (start g); cbn; auto. }
    destruct B as (B1 & B2 & B3).
    destruct (for_ticks _ _ rs) as [[[g2|g2] rs2]| |] eqn:F;
      try discriminate; injection L as <- <-;
      destruct (for_ticks_page _ _ _ _ _ F) as (L2 & R2 & S2);
      cbn [flow_game] in L2, R2.
    + split; [|split; [congruence|]].
      * destruct (at_least_one _); cbn; congruence.
      * intros _. left. destruct S2 as [S2 _].
        destruct (at_least_one _); cbn; split; congruence.
    + split; [congruence|]. split; [congruence|].
      intros _. right. split; congruence.
  - rewrite (loop_not_running time g rs NRun) in L.
    injection L as <- <-. split; [reflexivity|]. split; [reflexivity|].
    intros Run. contradiction.
Qed.

Lemma keydown_shape_of key g :
  exists d,
    keydown key g
    = set_snake (mkSnake d (body (snake g)) (lastMove (snake g))
                   (listeners (snake g))) g.
Proof.
  unfold keydown.
  destruct (onKeys_shape key (listeners (snake g)) (snake g))
    as (d & E & _).
  exists d. now rewrite E.
Qed.

Lemma keydown_page key g :
  listeners (snake (keydown key g)) = listeners (snake g) /\
  gameStatus (keydown key g) = gameStatus g /\
  requested (keydown key g) = requested g.
Proof.
  destruct (keydown_shape_of key g) as (d & ->). now cbn.
Qed.

(** While the game runs a frame is pending and one key listener is
    bound; while it is paused none is; never more than one is. *)
Lemma wiring g :
  reachable g ->
  (gameStatus g = StRun ->
   (1 <= requested g)%nat /\ listeners (snake g) = 1%nat) /\
  (gameStatus g = StPause -> listeners (snake g) = 0%nat) /\
  (listeners (snake g) <= 1)%nat.
Proof.
  intros R. unfold reachable in R. remember main as g0 eqn:E0.
  induction R as [g0|g0 g g' _ IH S]; subst g0.
  - cbn. repeat split; try discriminate. lia.
  - destruct (IH eq_refl) as (Run & Pau & Le). clear IH.
    destruct S as [g n time rs g1 rs1 Rq L|g b|g key].
    + destruct (loop_page _ _ _ _ _ L) as (Li & Idle & Live).
      cbn [snake set_requested gameStatus requested] in Li, Idle, Live.
      destruct (Status_eq_dec_run (gameStatus g)) as [R|NR].
      * destruct (Run R) as [_ L1].
        destruct (Live R) as [[S1 R1]|[S1 R1]]; rewrite S1, Li, L1;
          repeat split; try discriminate; lia.
      * rewrite (Idle NR). cbn [gameStatus snake set_requested].
        repeat split; try assumption; intros; contradiction.
    + destruct b; cbn [click]; destruct (gameStatus g) eqn:St; cbn;
        repeat split; intros; try congruence; try lia;
        try (destruct (Run eq_refl); (assumption || lia));
        try (rewrite (Pau eq_refl); (reflexivity || lia)).
    + destruct (keydown_page key g) as (-> & -> & ->).
      split; [exact Run|split; [exact Pau|exact Le]].
Qed.



(** X13.  In every state the game can reach, exactly one key listener
    is bound to the snake while the game runs and none while it is
    paused, so that a key press during a pause changes nothing; there
    is never more than one listener. *)
Theorem keys_bound_while_running :
  forall (g : Game),
    reachable g ->
    (gameStatus g = StRun -> listeners (snake g) = 1%nat) /\
    (gameStatus g = StPause ->
     listeners (snake g) = 0%nat /\ forall key, keydown key g = g) /\
    (listeners (snake g) <= 1)%nat.
Proof.
  intros g R. destruct (wiring g R) as (Run & Pau & Le).
  split; [intros St; now apply Run|]. split; [|exact Le].
  intros St. split; [now apply Pau|].
  intros key. unfold keydown. rewrite (Pau St). apply set_snake_same.
Qed.

Lemma keys_bound_while_running_witness :
  reachable just_resumed /\
  gameStatus just_resumed = StRun /\
  listeners (snake just_resumed) = 1%nat.
Proof.
  assert (R : reachable just_resumed) by apply run_reachable.
  split; [exact R|]. split; [reflexivity|].
  exact (proj1 (keys_bound_while_running just_resumed R) eq_refl).
Defined.

(** X14.  Pause followed by resume, in a state the game can reach with
    status run, gives the state back with only two differences: the
    time baseline [start] is cleared and one more frame is requested.
    Snake, direction, food, scores and the key listener are as
    before. *)
Theorem pause_then_resume :
  forall (g : Game),
    reachable g ->
    gameStatus g = StRun ->
    click btnResume (click btnPause g)
    = requestAnimationFrame (set_start None g).
Proof.
  intros g R Run.
  destruct (wiring g R) as (W & _). destruct (W Run) as [_ L].
  cbn [click]. rewrite Run. cbn [click gameStatus unbindKeys set_snake
    set_start set_gameStatus].
  destruct g as [[d b m l] f st pt gs sc hs sh dr al rq].
  cbn in *. subst. reflexivity.
Qed.

Lemma pause_then_resume_witness :
  reachable heading_right /\
  gameStatus heading_right = StRun /\
  click btnResume (click btnPause heading_right)
  = requestAnimationFrame (set_start None heading_right).
Proof.
  assert (R : reachable heading_right) by apply run_reachable.
  split; [exact R|]. split; [reflexivity|].
  exact (pause_then_resume heading_right R eq_refl).
Defined.

(** X15.  A frame callback in status run that does not end the game
    redraws the canvas once for each tick that is due, requests exactly
    one frame, and, when at least one tick was due, moves the time
    baseline [prevTime] to its own timestamp, dropping the remainder of
    the elapsed time. *)
Theorem frame_redraws_once_per_tick :
  forall (time : Q) (g : Game) (rs : list Q) (g' : Game) (rs' : list Q),
    gameStatus g = StRun ->
    loop time g rs = Ok (g', rs') ->
    gameStatus g' = StRun ->
    let n := rounds (elapsed_ticks time (prevTime (baseline time g))) in
    drawn g' = (drawn g + n)%nat /\
    requested g' = S (requested g) /\
    alerts g' = alerts g /\
    ((1 <= n)%nat -> prevTime g' = Some time) /\
    (n = 0%nat -> prevTime g' = prevTime (baseline time g)).
Proof.
  intros time g rs g' rs' Run L Run' n.
  unfold loop in L. rewrite Run in L. fold n in L.
  assert (B : drawn (baseline time g) = drawn g /\
              requested (baseline time g) = requested g /\
              alerts (baseline time g) = alerts g).
  { unfold baseline. destruct (start g); cbn; auto. }
  destruct B as (B1 & B2 & B3).
  destruct (for_ticks n (baseline time g) rs) as [[[g2|g2] rs2]| |] eqn:F;
    try discriminate; injection L as <- <-.
  - destruct (for_ticks_page _ _ _ _ _ F) as (_ & R2 & _ & D2).
    destruct (for_ticks_continue_page _ _ _ _ _ F) as (A2 & _ & _ & _ & P2).
    cbn [flow_game] in R2.
    pose proof (at_least_one_rounds
                  (elapsed_ticks time (prevTime (baseline time g)))) as O.
    fold n in O.
    destruct (at_least_one _) eqn:A; cbn; repeat split; try congruence.
    + intros Z. assert (1 <= n)%nat by now apply O. lia.
    + intros Z. assert (true = true -> False); [|tauto].
      intros _. assert (false = true) by (apply O; exact Z). discriminate.
  - destruct (for_ticks_page _ _ _ _ _ F) as (_ & _ & S2).
    cbn in S2. congruence.
Qed.

Lemma frame_redraws_once_per_tick_witness :
  gameStatus heading_right = StRun /\
  (exists g', loop 1800 heading_right [] = Ok (g', []) /\
              gameStatus g' = StRun /\
              drawn g' = (drawn heading_right + 3)%nat /\
              prevTime g' = Some 1800%Q).
Proof.
  split; [reflexivity|].
  pose (g' := match loop 1800 heading_right [] with
              | Ok (g', _) => g'
              | _ => heading_right
              end).
  assert (L : loop 1800 heading_right [] = Ok (g', []))
    by (vm_compute; reflexivity).
  assert (S : gameStatus g' = StRun) by (vm_compute; reflexivity).
  destruct (frame_redraws_once_per_tick 1800 heading_right [] g' []
              eq_refl L S) as (D & _ & _ & P & _).
  exists g'. split; [exact L|]. split; [exact S|].
  split; [exact D|]. apply P. vm_compute. lia.
Defined.

(** ** The snake and the food stay on the grid *)

Lemma checkMove_true_in_grid s nx ny :
  Snake.next s = Some (nx, ny) ->
  Snake.checkMove s = Some true -> in_grid nx ny.
Proof.
  intros N. unfold Snake.checkMove. rewrite N.
  destruct ((nx <? 0) || (nx >=? rows) || (ny <? 0) || (ny >=? cols)) eqn:O;
    [discriminate|]. intros _.
  assert (~ (nx < 0 \/ nx >= rows \/ ny < 0 \/ ny >= cols)).
  { intros H. apply out_of_grid_test in H. congruence. }
  unfold in_grid. lia.
Qed.

Lemma extend_inside s s' nx ny :
  Snake.next s = Some (nx, ny) -> in_grid nx ny ->
  Snake.extend s = Some s' ->
  Forall (fun b => in_grid (x b) (y b)) (body s) ->
  Forall (fun b => in_grid (x b) (y b)) (body s').
Proof.
  intros N G X F.
  apply extend_inv in X as (b0 & rest & nx' & ny' & E & N' & ->).
  rewrite N in N'. injection N' as <- <-. rewrite E in F.
  cbn [body]. inversion F as [|? ? F0 Fr]; subst.
  constructor; [exact G|]. constructor; [exact F0|exact Fr].
Qed.

Lemma Forall_suffix {A} (P : A -> Prop) l1 l2 :
  Forall P (l1 ++ l2) -> Forall P l2.
Proof. rewrite Forall_app. tauto. Qed.

Lemma tick_inside g rs fl rs' :
  inside g -> Forall unit_interval rs ->
  tick g rs = Ok (fl, rs') ->
  inside (flow_game fl) /\ Forall unit_interval rs'.
Proof.
  intros [Gf Gb] U T. apply tick_inv in T.
  destruct T as [g4 rs' s' E Uf X|s' E C M|E C]; cbn [flow_game].
  - apply eatFood_true in E.
    apply updateFood_inv in Uf as (cx & cy & SC & ->).
    apply sample_cell_ok in SC as (_ & used & rx & ry & -> & Hx & Hy).
    apply Forall_suffix in U.
    inversion U as [|? ? Ux U1]; subst.
    inversion U1 as [|? ? Uy U2]; subst.
    split; [|exact U2]. split.
    + pose proof (random_in_range rx rows eq_refl Ux) as Bx.
      pose proof (random_in_range ry cols eq_refl Uy) as By.
      split; assumption.
    + cbn [drawFrame set_snake set_food snake].
      exact (extend_inside _ _ _ _ E Gf X Gb).
  - split; [|exact U].
    apply eatFood_false in E as (nx & ny & N & _).
    pose proof (checkMove_true_in_grid _ _ _ N C) as G.
    apply move_inv in M as (s1 & X & ->).
    split; [exact Gf|]. cbn [drawFrame set_snake snake Snake.pop body].
    apply Forall_removelast. exact (extend_inside _ _ _ _ N G X Gb).
  - split; [|exact U]. split; assumption.
Qed.

Lemma for_ticks_inside : forall n g rs fl rs',
  inside g -> Forall unit_interval rs ->
  for_ticks n g rs = Ok (fl, rs') -> inside (flow_game fl).
Proof.
  induction n as [|n IH]; intros g rs fl rs' I U H.
  - injection H as <- <-. exact I.
  - cbn [for_ticks] in H.
    destruct (tick g rs) as [[[g1|g1] rs1]| |] eqn:T; try discriminate.
    + destruct (tick_inside _ _ _ _ I U T) as [I1 U1].
      exact (IH _ _ _ _ I1 U1 H).
    + injection H as <- <-. exact (proj1 (tick_inside _ _ _ _ I U T)).
Qed.

Lemma loop_inside time g rs g' rs' :
  inside g -> Forall unit_interval rs ->
  loop time g rs = Ok (g', rs') -> inside g'.
Proof.
  intros I U. unfold loop.
  destruct (gameStatus g); try (intros [= <- <-]; exact I).
  assert (I1 : inside (baseline time g))
    by (unfold baseline; now destruct (start g)).
  destruct (for_ticks _ _ rs) as [[[g2|g2] rs2]| |] eqn:F;
    try discriminate; intros [= <- <-];
    apply (for_ticks_inside _ _ _ _ _ I1 U) in F; cbn [flow_game] in F.
  - now destruct (at_least_one _).
  - exact F.
Qed.

Lemma resetGame_inside g : inside (resetGame g).
Proof.
  split; [cbn; unfold in_grid, rows, cols; lia|].
  change (body (snake (resetGame g)))
    with [mkBlock 10 10 snakeHeadColor; mkBlock 9 10 snakeBodyColor].
  constructor; [unfold in_grid, rows, cols; cbn; lia|].
  constructor; [unfold in_grid, rows, cols; cbn; lia|constructor].
Qed.

Lemma click_inside b g : inside g -> inside (click b g).
Proof.
  intros I.
  destruct b; cbn [click]; destruct (gameStatus g);
    try exact I; try apply resetGame_inside.
Qed.

Lemma keydown_inside key g : inside g -> inside (keydown key g).
Proof.
  intros I. destruct (keydown_shape_of key g) as (d & ->). exact I.
Qed.

(** X16.  As long as [Math.random()] returns values in [0, 1), the food
    and every block of the snake lie inside the grid in every state the
    game reaches: the snake never leaves the board, also not when it
    eats, where [checkMove] is not consulted. *)
Theorem snake_and_food_stay_on_grid :
  forall (g : Game),
    honest_steps main g ->
    in_grid (x (food g)) (y (food g)) /\
    forall b, In b (body (snake g)) -> in_grid (x b) (y b).
Proof.
  intros g H.
  assert (I : inside g).
  { remember main as g0 eqn:E0.
    induction H as [g0|g0 g g' _ IH S]; subst g0.
    - apply resetGame_inside.
    - specialize (IH eq_refl).
      destruct S as [g n time rs g1 rs1 U Rq L|g b|g key].
      + exact (loop_inside time (set_requested n g) rs g1 rs1 IH U L).
      + now apply click_inside.
      + now apply keydown_inside. }
  destruct I as [If Ib]. split; [exact If|].
  now rewrite Forall_forall in Ib.
Qed.

Lemma run_honest es : forall g0 g,
  Forall honest_event es -> honest_steps g0 g -> honest_steps g0 (run es g).
Proof.
  induction es as [|e es IH]; intros g0 g F S; [exact S|].
  inversion F as [|? ? He Fes]; subst.
  cbn [run fold_left]. apply IH; [exact Fes|].
  destruct e as [time rs|b|key]; cbn [fire].
  - destruct (requested g) as [|n] eqn:R; [exact S|].
    destruct (loop time (set_requested n g) rs) as [[g' rs']| |] eqn:L;
      try exact S.
    apply (honest_next _ g); [exact S|].
    exact (honest_frame _ _ _ _ _ _ He R L).
  - apply (honest_next _ g); [exact S|]. apply honest_click.
  - apply (honest_next _ g); [exact S|]. apply honest_key.
Qed.

Lemma snake_and_food_stay_on_grid_witness :
  honest_steps main played_again /\
  in_grid (x (food played_again)) (y (food played_again)).
Proof.
  assert (U : Forall unit_interval food_samples).
  { repeat constructor; discriminate. }
  assert (H : honest_steps main played_again).
  { unfold played_again, about_to_eat, heading_right.
    apply run_honest.
    { exact (Forall_cons (Frame 2500 food_samples) U
               (Forall_cons (Click btnEnd) I
                  (Forall_cons (Click btnStart) I (Forall_nil _)))). }
    apply run_honest.
    { exact (Forall_cons (Key "s") I
               (Forall_cons (Frame 2250 []) (Forall_nil _)
                  (Forall_cons (Key "d") I (Forall_nil _)))). }
    apply run_honest.
    { exact (Forall_cons (Click btnStart) I
               (Forall_cons (Frame 0 []) (Forall_nil _)
                  (Forall_cons (Frame 1000 []) (Forall_nil _)
                     (Forall_nil _)))). }
    apply honest_refl. }
  split; [exact H|].
  exact (proj1 (snake_and_food_stay_on_grid played_again H)).
Defined.

(** ** The canvas *)

Lemma find_app_first {A} (p : A -> bool) l1 l2 :
  find p (l1 ++ l2)
  = match find p l1 with Some a => Some a | None => find p l2 end.
Proof.
  induction l1 as [|a l1 IH]; [reflexivity|].
  cbn [app find]. now destruct (p a).
Qed.

Lemma filled_draw_Snake : forall l ctx,
  Canvas.filled (fold_left (fun c b => Canvas.draw_Block b c) l ctx)
  = rev (map Canvas.block_rect l) ++ Canvas.filled ctx.
Proof.
  induction l as [|b l IH]; intros ctx; [reflexivity|].
  cbn [fold_left map rev]. rewrite IH. rewrite <- app_assoc. reflexivity.
Qed.

Lemma covers_block px py b :
  Canvas.covers px py (Canvas.block_rect b)
  = Snake.hits (px / blockSize) (py / blockSize) b.
Proof.
  apply eq_iff_eq_true.
  unfold Canvas.covers, Canvas.block_rect, Snake.hits, blockSize.
  cbn [Canvas.left Canvas.top Canvas.wide Canvas.high].
  rewrite !andb_true_iff, !Z.leb_le, !Z.ltb_lt, !Z.eqb_eq.
  pose proof (Z.div_mod px 20 ltac:(lia)).
  pose proof (Z.mod_pos_bound px 20 ltac:(lia)).
  pose proof (Z.div_mod py 20 ltac:(lia)).
  pose proof (Z.mod_pos_bound py 20 ltac:(lia)).
  lia.
Qed.

Lemma find_block_rects px py l :
  find (Canvas.covers px py) (map Canvas.block_rect l)
  = option_map Canvas.block_rect
      (find (Snake.hits (px / blockSize) (py / blockSize)) l).
Proof.
  induction l as [|b l IH]; [reflexivity|].
  cbn [map find]. rewrite covers_block.
  now destruct (Snake.hits _ _ b).
Qed.

(** X17.  After [drawFrame()] every pixel of the canvas has the colour
    of its grid cell (the cell with the pixel's coordinates divided by
    the block size): the food's colour on the food's cell, otherwise
    the colour of the last block of the body lying on the cell,
    otherwise the background.  Nothing painted before shows through. *)
Theorem drawFrame_paints_cells :
  forall (g : Game) (ctx : Canvas.Context) (px py : Z),
    0 <= px < Canvas.width -> 0 <= py < Canvas.height ->
    Canvas.pixel (Canvas.drawFrame g ctx) px py
    = Some (Canvas.cell_colour g (px / blockSize) (py / blockSize)).
Proof.
  intros g ctx px py Hx Hy.
  unfold Canvas.pixel, Canvas.drawFrame, Canvas.draw_Snake.
  unfold Canvas.draw_Block at 1.
  cbn [Canvas.filled Canvas.fillRect Canvas.set_fillStyle Canvas.fillStyle].
  change (Canvas.mkRect (x (food g) * blockSize) (y (food g) * blockSize)
            blockSize blockSize (color (food g)))
    with (Canvas.block_rect (food g)).
  cbn [find]. rewrite covers_block. unfold Canvas.cell_colour.
  destruct (Snake.hits (px / blockSize) (py / blockSize) (food g));
    [reflexivity|].
  rewrite filled_draw_Snake, find_app_first, <- map_rev, find_block_rects.
  destruct (find _ (rev (body (snake g)))) as [b|]; [reflexivity|].
  cbn [option_map Canvas.filled Canvas.fillRect Canvas.set_fillStyle
       Canvas.fillStyle find].
  assert (C : Canvas.covers px py
                (Canvas.mkRect 0 0 Canvas.width Canvas.height bgColor)
              = true).
  { unfold Canvas.covers. cbn [Canvas.left Canvas.top Canvas.wide
      Canvas.high].
    rewrite !andb_true_iff, !Z.leb_le, !Z.ltb_lt. lia. }
  now rewrite C.
Qed.

Lemma drawFrame_paints_cells_witness :
  0 <= 305 < Canvas.width /\ 0 <= 310 < Canvas.height /\
  Canvas.pixel (Canvas.drawFrame main (Canvas.mkContext "blue" [])) 305 310
  = Some "red"%string.
Proof.
  assert (Hx : 0 <= 305 < Canvas.width)
    by (unfold Canvas.width, rows, blockSize; lia).
  assert (Hy : 0 <= 310 < Canvas.height)
    by (unfold Canvas.height, cols, blockSize; lia).
  split; [exact Hx|]. split; [exact Hy|].
  exact (drawFrame_paints_cells main (Canvas.mkContext "blue" [])
           305 310 Hx Hy).
Defined.

(** ** Catching up after a stall *)

Lemma tick_step_ahead g rs g' rs' h rest :
  tick g rs = Ok (Continue g', rs') ->
  body (snake g) = h :: rest ->
  exists h' rest',
    body (snake g') = h' :: rest' /\
    x h' = x h + at_index kDx (code (direction (snake g))) /\
    y h' = y h + at_index kDy (code (direction (snake g))) /\
    direction (snake g') = direction (snake g) /\
    lastMove (snake g') = direction (snake g) /\
    score g <= score g' <= score g + 1.
Proof.
  intros T E. apply tick_inv in T.
  inversion T as [g4 rs1 s' _ U X|s' _ _ M|]; subst; clear T.
  - apply updateFood_inv in U as (cx & cy & _ & ->).
    apply extend_inv in X as (b0 & rest0 & nx & ny & E0 & N & ->).
    rewrite (next_some _ b0 rest0 E0) in N. injection N as <- <-.
    rewrite E in E0. injection E0 as <- <-.
    do 2 eexists. cbn. repeat split; lia.
  - apply move_inv in M as (s1 & X & ->).
    apply extend_inv in X as (b0 & rest0 & nx & ny & E0 & N & ->).
    rewrite (next_some _ b0 rest0 E0) in N. injection N as <- <-.
    rewrite E in E0. injection E0 as <- <-.
    cbn [drawFrame set_snake snake Snake.pop body direction lastMove score].
    rewrite removelast_cons2.
    do 2 eexists. split; [reflexivity|]. cbn. repeat split; lia.
Qed.

(** X18.  The ticks of one frame that go through move the head in a
    straight line: after [n] ticks the head is [n] steps further in the
    direction the snake had when the frame began, that direction is
    still the current one, and the score has grown by at most [n]. *)
Theorem frame_moves_straight :
  forall (n : nat) (g : Game) (rs : list Q) (g' : Game) (rs' : list Q)
         (h : Block) (rest : list Block),
    for_ticks n g rs = Ok (Continue g', rs') ->
    body (snake g) = h :: rest ->
    exists h' rest',
      body (snake g') = h' :: rest' /\
      x h' = x h + Z.of_nat n * at_index kDx (code (direction (snake g))) /\
      y h' = y h + Z.of_nat n * at_index kDy (code (direction (snake g))) /\
      direction (snake g') = direction (snake g) /\
      score g <= score g' <= score g + Z.of_nat n.
Proof.
  induction n as [|n IH]; intros g rs g' rs' h rest F E.
  - injection F as <- <-. exists h, rest. repeat split; auto; lia.
  - cbn [for_ticks] in F.
    destruct (tick g rs) as [[[g1|g1] rs1]| |] eqn:T; try discriminate.
    destruct (tick_step_ahead _ _ _ _ _ _ T E)
      as (h1 & rest1 & E1 & X1 & Y1 & D1 & _ & S1).
    destruct (IH _ _ _ _ _ _ F E1)
      as (h' & rest' & E' & X' & Y' & D' & S').
    exists h', rest'. rewrite D1 in X', Y', D'.
    repeat split; auto; lia.
Qed.

Lemma frame_moves_straight_witness :
  exists g',
    for_ticks 3 heading_right [] = Ok (Continue g', []) /\
    map cell (body (snake heading_right)) = [(14, 10); (13, 10)] /\
    map cell (body (snake g')) = [(17, 10); (16, 10)] /\
    exists h' rest',
      body (snake g') = h' :: rest' /\ x h' = 14 + 3 * 1.
Proof.
  pose (g' := match for_ticks 3 heading_right [] with
              | Ok (fl, _) => flow_game fl
              | _ => heading_right
              end).
  assert (F : for_ticks 3 heading_right [] = Ok (Continue g', []))
    by (vm_compute; reflexivity).
  exists g'. split; [exact F|]. split; [reflexivity|].
  split; [vm_compute; reflexivity|].
  destruct (frame_moves_straight 3 heading_right [] g' []
              (mkBlock 14 10 "orange") [mkBlock 13 10 "green"] F eq_refl)
    as (h' & rest' & E' & X' & _).
  exists h', rest'. split; [exact E'|exact X'].
Defined.
